(** * helpers.py of the fault-injection framework: a shallow embedding

    The module under study is a collection of helpers working on a
    networkx [DiGraph] whose nodes carry a [Node] object under the attribute
    key ["node"].  Python objects are mutable and shared, so the [Node]
    objects live in a store indexed by object identity; the attribute
    dictionaries of the graph only hold references into that store. *)

From stdpp Require Import base option list functions gmap strings fin_maps
  sorting pretty.
From Stdlib Require Import Ascii ZArith Lia.
From Stdlib Require String.
From Stdlib Require OrderedTypeEx.

Open Scope string_scope.
Open Scope list_scope.

(** ** Records of the module: [class Node] and [class Port] *)

Module Node.
Record t := mk {
  name : string;
  parent_name : string;
  type : string;
  inputs : list string;
  outputs : list string;
  stage : string;
  node_color : string
}.

(** The assignment [obj.name = s]. *)
Definition set_name (n : t) (s : string) : t :=
  mk s (parent_name n) (type n) (inputs n) (outputs n) (stage n)
     (node_color n).
End Node.

Module Port.
Record t := mk {
  name : string;
  pins : list string;
  type : string;
  length : nat
}.
End Port.

(** ** Paths (pathlib.PurePosixPath)

    A path is parsed once, when it is constructed: the root is ["/"], ["//"]
    (exactly two leading slashes) or empty, and the components are the
    pieces between slashes with empty pieces and ["."] dropped. *)

Fixpoint split_on (sep : ascii) (s : string) : list string :=
  match s with
  | EmptyString => [""]
  | String c s' =>
      if Ascii.eqb c sep then "" :: split_on sep s'
      else match split_on sep s' with
           | x :: xs => String c x :: xs
           | [] => [String c ""]
           end
  end.

Fixpoint lstrip_char (c : ascii) (s : string) : string :=
  match s with
  | String c' s' => if Ascii.eqb c' c then lstrip_char c s' else s
  | EmptyString => EmptyString
  end.

Fixpoint join (sep : string) (l : list string) : string :=
  match l with
  | [] => ""
  | [x] => x
  | x :: l' => x +:+ sep +:+ join sep l'
  end.

Record Path := MkPath {
  root : string;
  parts : list string         (* the components after the root *)
}.

(** [splitroot] of the POSIX flavour. *)
Definition splitroot (part : string) : string * string :=
  match part with
  | String "/" _ =>
      let stripped_part := lstrip_char "/" part in
      if Nat.eqb (String.length part - String.length stripped_part) 2
      then ("//", stripped_part)
      else ("/", stripped_part)
  | _ => ("", part)
  end.

Definition keep_component (x : string) : bool :=
  negb (String.eqb x "") && negb (String.eqb x ".").

(** [Path(s)] *)
Definition path_of (s : string) : Path :=
  let '(root, rel) := splitroot s in
  MkPath root (List.filter keep_component (split_on "/" rel)).

(** [str(path)] *)
Definition path_str (p : Path) : string :=
  if String.eqb (root p) "" then
    match parts p with
    | [] => "."
    | _ => join "/" (parts p)
    end
  else root p +:+ join "/" (parts p).

(** [path.parent]: a path without components is its own parent. *)
Definition parent (p : Path) : Path :=
  MkPath (root p) (removelast (parts p)).

(** ** The object store, the output channels and exceptions *)

(** Identity of a [Node] object. *)
Abbreviation loc := nat.

Record world := World {
  heap : loc → Node.t;          (* every reference denotes a live object *)
  log : list string;            (* records emitted through [logger.info] *)
  stderr : list string;         (* chunks written by [sys.stderr.write] *)
  cwd : Path                    (* working directory of the process *)
}.

(** Error numbers of a failed system call. *)
Inductive errno :=
  | ENOENT | ENOTDIR | EBADF | ELOOP | EACCES | ENAMETOOLONG | EIO.

(** The exceptions of the module and of its collaborators.  [OSError e] is
    the error of a failed [os.stat], of whatever subclass, with its error
    number. *)
Inductive exn :=
  | KeyError (key : string)
  | IndexError
  | ArgumentTypeError (msg : string)
  | OSError (e : errno)
  | FileNotFoundError (what : string)
  | NotADirectoryError (what : string)
  | PermissionError (what : string)
  | RuntimeError (msg : string)
  | UnicodeDecodeError
  | DistributionNotFound (req : string)
  | VersionConflict (req : string)
  | SystemExit (code : Z).

Inductive result (A : Type) :=
  | Ok (a : A)
  | Raise (e : exn).
Arguments Ok {A} a.
Arguments Raise {A} e.

(** Computations: they read and write the world and either return or raise.
    Effects performed before an exception is raised stay in the world. *)
Definition M (A : Type) : Type := world → result A * world.

#[global] Instance M_ret : MRet M := λ A a w, (Ok a, w).
#[global] Instance M_bind : MBind M := λ A B f c w,
  match c w with
  | (Ok a, w') => f a w'
  | (Raise e, w') => (Raise e, w')
  end.

Definition raise {A} (e : exn) : M A := λ w, (Raise e, w).

Definition deref (r : loc) : M Node.t := λ w, (Ok (heap w r), w).

Definition store (r : loc) (n : Node.t) : M unit := λ w,
  (Ok tt, World (<[r := n]> (heap w)) (log w) (stderr w) (cwd w)).

Definition logger_info (msg : string) : M unit := λ w,
  (Ok tt, World (heap w) (log w ++ [msg]) (stderr w) (cwd w)).

Definition stderr_write (s : string) : M unit := λ w,
  (Ok tt, World (heap w) (log w) (stderr w ++ [s]) (cwd w)).

Definition set_cwd (p : Path) : M unit := λ w,
  (Ok tt, World (heap w) (log w) (stderr w) p).

(** A [for] loop threading a local variable. *)
Fixpoint for_fold {A B} (f : B → A → M B) (b : B) (l : list A) : M B :=
  match l with
  | [] => mret b
  | x :: l' => b' ← f b x; for_fold f b' l'
  end.

(** ** Python dictionaries with string keys

    A [dict] iterates in insertion order; assigning to a key that is already
    present keeps the key's position. *)

Section pydict.
Context {V : Type}.

Definition pydict := list (string * V).

Fixpoint dict_get (d : pydict) (k : string) : option V :=
  match d with
  | [] => None
  | (k', v) :: d' => if String.eqb k k' then Some v else dict_get d' k
  end.

Fixpoint dict_set (d : pydict) (k : string) (v : V) : pydict :=
  match d with
  | [] => [(k, v)]
  | (k', v') :: d' =>
      if String.eqb k k' then (k', v) :: d' else (k', v') :: dict_set d' k v
  end.

Definition dict_contains (d : pydict) (k : string) : bool :=
  match dict_get d k with Some _ => true | None => false end.

(** [d.update(pairs)] *)
Definition dict_update (d : pydict) (pairs : list (string * V)) : pydict :=
  fold_left (λ acc kv, dict_set acc kv.1 kv.2) pairs d.

Definition keys (d : pydict) : list string := d.*1.
Definition values (d : pydict) : list V := d.*2.
End pydict.
Arguments pydict : clear implicits.

(** ** The graph collaborator (networkx.DiGraph)

    The attribute dictionary of a node: the entry under the fixed key
    ["node"], when present, is a reference to a [Node] object; the remaining
    entries are opaque to this module. *)
Record attrs := Attrs {
  attr_node : option loc;
  attr_rest : gmap string string
}.

Definition no_attrs : attrs := Attrs None ∅.

(** Attribute dictionary of an edge. *)
Definition eattrs := gmap string string.

(** [_node] maps a node key to its attribute dictionary, [_succ] maps a node
    key to the dictionary of its successors ([_pred] mirrors [_succ] and is
    left out), [graph] holds the graph-level attributes. *)
Record DiGraph := Graph {
  _node : pydict attrs;
  _succ : pydict (pydict eattrs);
  graph : gmap string string
}.

Definition empty_graph : DiGraph := Graph [] [] ∅.

(** [G.add_node(n)] without attributes. *)
Definition add_node (G : DiGraph) (n : string) : DiGraph :=
  if dict_contains (_node G) n then G
  else Graph (dict_set (_node G) n no_attrs) (dict_set (_succ G) n [])
             (graph G).

Definition add_nodes_from (G : DiGraph) (ns : list string) : DiGraph :=
  fold_left add_node ns G.

(** [G._node.update(pairs)] *)
Definition node_update (G : DiGraph) (pairs : list (string * attrs))
  : DiGraph :=
  Graph (dict_update (_node G) pairs) (_succ G) (graph G).

(** Adding a successor entry for a key that is not a node yet creates the
    node first. *)
Definition ensure_node (G : DiGraph) (n : string) : DiGraph :=
  if dict_contains (_succ G) n then G
  else Graph (dict_set (_node G) n no_attrs) (dict_set (_succ G) n [])
             (graph G).

(** [G.add_edge(u, v, **dd)]: the attributes of an existing edge are
    updated, not replaced. *)
Definition add_edge (G : DiGraph) (e : string * string * eattrs) : DiGraph :=
  let '(u, v, dd) := e in
  let G := ensure_node (ensure_node G u) v in
  let nbrs := default [] (dict_get (_succ G) u) in
  let datadict := default ∅ (dict_get nbrs v) in
  Graph (_node G) (dict_set (_succ G) u (dict_set nbrs v (dd ∪ datadict)))
        (graph G).

Definition add_edges_from (G : DiGraph) (es : list (string * string * eattrs))
  : DiGraph :=
  fold_left add_edge es G.

(** [G.edges(data=True)] *)
Definition edges (G : DiGraph) : list (string * string * eattrs) :=
  '(u, nbrs) ← _succ G; '(v, dd) ← nbrs; [(u, v, dd)].

(** [G.nodes(data=True)] and [G.nodes().values()] *)
Definition nodes_data (G : DiGraph) : list (string * attrs) := _node G.
Definition nodes_values (G : DiGraph) : list attrs := values (_node G).

(** [mapping.get(n, n)] *)
Definition mapping_get (mapping : gmap string string) (n : string) : string :=
  default n (mapping !! n).

(** [nx.relabel_nodes(G, mapping)] with the default [copy=True]: a new
    graph is built, nodes first, then their attribute dictionaries (copies
    that still refer to the same [Node] objects), then the edges. *)
Definition relabel_nodes (G : DiGraph) (mapping : gmap string string)
  : DiGraph :=
  let m := mapping_get mapping in
  let H := empty_graph in
  let H := add_nodes_from H (m <$> keys (_node G)) in
  let H := node_update H ((λ nd, (m nd.1, nd.2)) <$> nodes_data G) in
  let new_edges := (λ e, (m e.1.1, m e.1.2, e.2)) <$> edges G in
  let H := add_edges_from H new_edges in
  Graph (_node H) (_succ H) (graph G ∪ graph H).

(** ** rename_nodes *)

(** [node_attribute["node"]] *)
Definition getitem_node (node_attribute : attrs) : M loc :=
  match attr_node node_attribute with
  | Some r => mret r
  | None => raise (KeyError "node")
  end.

(** [node_attribute["node"].name = node_attribute["node"].name + suffix] *)
Definition append_to_name (node_attribute : attrs) (suffix : string)
  : M unit :=
  r ← getitem_node node_attribute;
  n ← deref r;
  r' ← getitem_node node_attribute;
  n' ← deref r';
  store r' (Node.set_name n' (Node.name n +:+ suffix)).

Definition rename_body (suffix : string) (ignore_inputs : bool)
    (name_mapping : gmap string string) (item : string * attrs)
  : M (gmap string string) :=
  let '(node, node_attribute) := item in
  if ignore_inputs then
    r ← getitem_node node_attribute;
    n ← deref r;
    if negb (String.eqb (Node.type n) "input") then
      let name_mapping := <[node := node +:+ suffix]> name_mapping in
      append_to_name node_attribute suffix;;
      mret name_mapping
    else mret name_mapping
  else
    let name_mapping := <[node := node +:+ suffix]> name_mapping in
    append_to_name node_attribute suffix;;
    mret name_mapping.

Definition rename_nodes (G : DiGraph) (suffix : string) (ignore_inputs : bool)
  : M DiGraph :=
  name_mapping ← for_fold (rename_body suffix ignore_inputs) ∅ (nodes_data G);
  mret (relabel_nodes G name_mapping).

(** ** numpy.unique(ar, return_counts=True)

    The list is first turned into an array of strings.  numpy keeps the
    strings of an array in cells of one width, padded with NUL characters,
    and an element read from the array has its trailing NUL characters
    dropped: strings that differ only by trailing NULs are one value.  The
    array is then sorted, the first element of every run of equal elements
    is kept, and the length of the run is its count. *)

Definition nul : ascii := ascii_of_nat 0.

(** A string as it is read back from an array. *)
Fixpoint np_str (s : string) : string :=
  match s with
  | EmptyString => EmptyString
  | String c s' =>
      match np_str s' with
      | EmptyString => if Ascii.eqb c nul then EmptyString else String c ""
      | t => String c t
      end
  end.

(** [np.asanyarray(ar)] for a list of strings. *)
Definition np_array (ar : list string) : list string := np_str <$> ar.

Fixpoint insert_sorted (x : string) (l : list string) : list string :=
  match l with
  | [] => [x]
  | y :: l' => if String.leb x y then x :: l else y :: insert_sorted x l'
  end.

Definition sort (l : list string) : list string := foldr insert_sorted [] l.

Fixpoint runs (l : list string) : list (string * nat) :=
  match l with
  | [] => []
  | x :: l' =>
      match runs l' with
      | (y, c) :: r => if String.eqb x y then (y, S c) :: r
                       else (x, 1) :: (y, c) :: r
      | [] => [(x, 1)]
      end
  end.

Definition np_unique (ar : list string) : list string * list nat :=
  let r := runs (sort (np_array ar)) in (r.*1, r.*2).

(** [str(n)] for a count. *)
Definition str (n : nat) : string := pretty n.

(** ** The environment of the module *)

(** What [os.stat] finds under a name (symbolic links followed). *)
Inductive file_kind := RegularFile | Directory | OtherFile.

(** How [os.stat] ends: with the kind of the entry, with an [OSError], or
    with the [ValueError] of a name that cannot be passed to the system. *)
Inductive stat_outcome :=
  | Stat (k : file_kind)
  | StatOSError (e : errno)
  | StatValueError.

Record environment := Env {
  (* the integer read from [stty size] when the module is loaded *)
  TERMINAL_COLS : nat;
  (* [nangate45_cell_library.registers] *)
  registers : gset string;
  (* [os.stat] of a name *)
  fs_stat : string → stat_outcome;
  (* [Path.resolve()] of a path, in a working directory *)
  fs_resolve : Path → Path → result Path;
  (* [os.chdir] to a name: the exception it raises, if any *)
  fs_chdir : string → option exn;
  (* [subprocess.run] of [git describe --always --dirty --broken] in a
     directory: the standard output, or the exception of a program that
     cannot be started *)
  git_describe : Path → result string;
  (* [pkg_resources.require] of a requirement: the versions of the
     distributions found, or the exception of the lookup *)
  pkg_require : string → result (list string)
}.

Section helpers.
Variable env : environment.

(** ["-" * int(TERMINAL_COLS)] *)
Definition header : string :=
  String.concat "" (replicate (TERMINAL_COLS env) "-").

(** *** print_graph_stat *)

Definition collect_gate (gates : list string) (node : attrs)
  : M (list string) :=
  match attr_node node with
  | Some r => n ← deref r; mret (gates ++ [Node.type n])
  | None => mret gates
  end.

Definition print_stat_line (gates : list string) (number : list nat)
    (_ : unit) (cnt : nat) : M unit :=
  match gates !! cnt, number !! cnt with
  | Some g, Some c => logger_info (g +:+ ": " +:+ str c)
  | _, _ => raise IndexError
  end.

Definition print_graph_stat (G : DiGraph) : M unit :=
  gates ← for_fold collect_gate [] (nodes_values G);
  let '(gates, number) := np_unique gates in
  for_fold (print_stat_line gates number) tt (seq 0 (List.length gates));;
  logger_info header.

(** *** get_registers *)

Definition collect_register (registers_ : list attrs) (node : attrs)
  : M (list attrs) :=
  match attr_node node with
  | Some r =>
      n ← deref r;
      if bool_decide (Node.type n ∈ registers env)
      then mret (registers_ ++ [node])
      else mret registers_
  | None => mret registers_
  end.

Definition get_registers (G : DiGraph) : M (list attrs) :=
  for_fold collect_register [] (nodes_values G).

(** *** ap_check_file_exists and ap_check_dir_exists *)

(** The error numbers [Path.is_file] and [Path.exists] take for "no such
    file"; an [OSError] with another number is raised again. *)
Definition ignore_error (e : errno) : bool :=
  match e with
  | ENOENT | ENOTDIR | EBADF | ELOOP => true
  | _ => false
  end.

(** [path.is_file()] *)
Definition is_file (p : Path) : M bool :=
  match fs_stat env (path_str p) with
  | Stat RegularFile => mret true
  | Stat _ => mret false
  | StatOSError e => if ignore_error e then mret false else raise (OSError e)
  | StatValueError => mret false
  end.

(** [path.exists()] *)
Definition exists_ (p : Path) : M bool :=
  match fs_stat env (path_str p) with
  | Stat _ => mret true
  | StatOSError e => if ignore_error e then mret false else raise (OSError e)
  | StatValueError => mret false
  end.

Definition ap_check_file_exists (file_path : string) : M Path :=
  let path := path_of file_path in
  found ← is_file path;
  if negb found then
    raise (ArgumentTypeError
             ("File " +:+ path_str path +:+ " does not exist"))
  else mret path.

Definition ap_check_dir_exists (path : string) : M Path :=
  let path := path_of path in
  found ← exists_ (parent path);
  if negb found then
    raise (ArgumentTypeError
             ("Path " +:+ path_str (parent path) +:+ " does not exist"))
  else mret path.

(** *** print_ports *)

Definition print_ports_body (acc : string * string)
    (item : string * Port.t) : M (string * string) :=
  let '(in_string, out_string) := acc in
  let '(port_name, port) := item in
  if String.eqb (Port.type port) "input"
  then mret (in_string +:+ port_name +:+ " ", out_string)
  else mret (in_string, out_string +:+ port_name +:+ " ").

Definition print_ports (ports : pydict Port.t) : M unit :=
  let in_string := "Inputs:  " in
  let out_string := "Outputs: " in
  '(in_string, out_string) ←
    for_fold print_ports_body (in_string, out_string) ports;
  logger_info header;;
  logger_info in_string;;
  logger_info out_string;;
  logger_info header.

(** *** show_and_exit *)

Definition is_space (c : ascii) : bool :=
  let n := nat_of_ascii c in
  Nat.eqb n 32 || (Nat.leb 9 n && Nat.leb n 13).

Fixpoint lstrip (s : string) : string :=
  match s with
  | String c s' => if is_space c then lstrip s' else s
  | EmptyString => EmptyString
  end.

Fixpoint rstrip (s : string) : string :=
  match s with
  | String c s' =>
      match rstrip s' with
      | EmptyString => if is_space c then EmptyString else String c ""
      | t => String c t
      end
  | EmptyString => EmptyString
  end.

(** [bytes.strip()] *)
Definition strip (s : string) : string := rstrip (lstrip s).

Fixpoint is_ascii (s : string) : bool :=
  match s with
  | String c s' => Nat.ltb (nat_of_ascii c) 128 && is_ascii s'
  | EmptyString => true
  end.

(** [bytes.decode('ascii')] *)
Definition decode_ascii (s : string) : M string :=
  if is_ascii s then mret s else raise UnicodeDecodeError.

(** [Path(clitool).resolve()] *)
Definition path_resolve (p : Path) : M Path := λ w,
  (fs_resolve env (cwd w) p, w).

(** [os.chdir] *)
Definition os_chdir (p : Path) : M unit :=
  match fs_chdir env (path_str p) with
  | None => set_cwd p
  | Some e => raise e
  end.

(** [subprocess.run(["git", "describe", ...], stdout=PIPE).stdout] *)
Definition run_git_describe : M string := λ w,
  (git_describe env (cwd w), w).

(** [pkg_resources.require(p)[0].version]: the lookup can raise, and the
    index raises on an empty result. *)
Definition require_version (p : string) : M string :=
  match pkg_require env p with
  | Ok (v :: _) => mret v
  | Ok [] => raise IndexError
  | Raise e => raise e
  end.

Definition nl : string := String (ascii_of_nat 10) "".

(** The body of the loop over the packages. *)
Definition report_package (_ : unit) (p : string) : M unit :=
  v ← require_version p; stderr_write (p +:+ " " +:+ v +:+ nl).

Definition show_and_exit (clitool : string) (packages : list string)
  : M unit :=
  resolved ← path_resolve (path_of clitool);
  let util_path := parent resolved in
  os_chdir util_path;;
  out ← run_git_describe;
  ver ← decode_ascii (strip out);
  let ver := if String.eqb ver "" then "not found (not in Git repository?)"
             else ver in
  stderr_write (clitool +:+ " Git version " +:+ ver +:+ nl);;
  for_fold report_package tt packages;;
  raise (SystemExit 0).
End helpers.

(** * Vocabulary of the specification

    The notions the claims are stated with, and the graphs, stores and
    environments of the examples. *)

(** ** Graphs and records *)

Definition carries_record (d : attrs) : bool :=
  match attr_node d with Some _ => true | None => false end.

Definition all_records (items : list (string * attrs)) : Prop :=
  Forall (λ nd, carries_record nd.2 = true) items.

(** The records attached to the nodes, in iteration order. *)
Definition refs (items : list (string * attrs)) : list loc :=
  omap (λ nd, attr_node nd.2) items.

(** The invariants networkx maintains on a graph: a key occurs once in a
    dictionary, the successor table has the keys of the node table, and
    the end of every edge is a node. *)
Definition wf_graph (G : DiGraph) : Prop :=
  NoDup (keys (_node G)) ∧
  keys (_succ G) = keys (_node G) ∧
  Forall (λ un, NoDup (keys un.2) ∧ keys un.2 ⊆ keys (_node G)) (_succ G).

Definition relabel_nbrs (f : string → string) (nbrs : pydict eattrs)
  : pydict eattrs :=
  (λ vd, (f vd.1, vd.2)) <$> nbrs.

Definition relabel_succ (f : string → string)
    (succ : pydict (pydict eattrs)) : pydict (pydict eattrs) :=
  (λ un, (f un.1, relabel_nbrs f un.2)) <$> succ.

(** The graph with every key replaced by its image under [f], everything
    else in place. *)
Definition image (f : string → string) (G : DiGraph) : DiGraph :=
  Graph ((λ nd, (f nd.1, nd.2)) <$> _node G) (relabel_succ f (_succ G))
        (graph G).

(** Everything of a record but its name. *)
Definition same_but_name (n n' : Node.t) : Prop :=
  Node.parent_name n' = Node.parent_name n ∧
  Node.type n' = Node.type n ∧
  Node.inputs n' = Node.inputs n ∧
  Node.outputs n' = Node.outputs n ∧
  Node.stage n' = Node.stage n ∧
  Node.node_color n' = Node.node_color n.

(** The name of the record a node carries, if it carries one. *)
Definition name_of (h : loc → Node.t) (d : attrs) : option string :=
  (λ r, Node.name (h r)) <$> attr_node d.

(** Every node carries a record whose name is the key of the node. *)
Definition lockstep (G : DiGraph) (h : loc → Node.t) : Prop :=
  Forall (λ nd, name_of h nd.2 = Some nd.1) (_node G).

(** ** Register extraction and statistics *)

(** A node qualifies when it carries a record whose type is in the table. *)
Definition is_register (env : environment) (h : loc → Node.t) (d : attrs)
  : bool :=
  match attr_node d with
  | Some r => bool_decide (Node.type (h r) ∈ registers env)
  | None => false
  end.

(** The type of the record a node carries, if it carries one. *)
Definition gate_of (h : loc → Node.t) (d : attrs) : option string :=
  (λ r, Node.type (h r)) <$> attr_node d.

(** The types of the record-carrying nodes, in iteration order. *)
Definition gate_types (h : loc → Node.t) (G : DiGraph) : list string :=
  omap (gate_of h) (nodes_values G).

(** Number of occurrences of a type among the collected ones. *)
Definition occurrences (t : string) (gates : list string) : nat :=
  List.length (List.filter (String.eqb t) gates).

(** Strict lexicographic order on strings. *)
Definition str_lt (s t : string) : Prop := String.ltb s t = true.

Definition stat_line (t : string) (c : nat) : string := t +:+ ": " +:+ str c.

(** The graph with the record-less nodes taken out of the node table. *)
Definition without_recordless (G : DiGraph) : DiGraph :=
  Graph (List.filter (λ nd, carries_record nd.2) (_node G)) (_succ G)
        (graph G).

(** ** Ports *)

Definition is_input (item : string * Port.t) : bool :=
  String.eqb (Port.type item.2) "input".

Definition is_not_input (item : string * Port.t) : bool :=
  negb (is_input item).

(** Names written one after the other, each followed by one space. *)
Fixpoint listing (names : list string) : string :=
  match names with
  | [] => ""
  | n :: names' => n +:+ " " +:+ listing names'
  end.

(** ** Path validators *)

(** [contains msg s]: the text [s] occurs in [msg]. *)
Fixpoint contains (msg s : string) : bool :=
  String.prefix s msg ||
  match msg with
  | String _ msg' => contains msg' s
  | EmptyString => false
  end.

(** The readings of the file validator that the code does not follow: that
    the returned path is the resolved one, that the message of the error
    carries the argument as it was typed, and that every failure is the
    error of the argument parser. *)
Definition returns_resolved (env : environment) (file_path : string)
    (w : world) : Prop :=
  ∀ p, (ap_check_file_exists env file_path w).1 = Ok p →
       fs_resolve env (cwd w) (path_of file_path) = Ok p.

Definition message_has_argument (env : environment) (file_path : string)
    (w : world) : Prop :=
  ∀ msg, (ap_check_file_exists env file_path w).1
         = Raise (ArgumentTypeError msg) →
         contains msg file_path = true.

Definition fails_with_parser_error (env : environment) (file_path : string)
    (w : world) : Prop :=
  ∀ e, (ap_check_file_exists env file_path w).1 = Raise e →
       ∃ msg, e = ArgumentTypeError msg.

(** What the file validator does with the path it has built. *)
Definition file_outcome (env : environment) (p : Path) : result Path :=
  match fs_stat env (path_str p) with
  | Stat RegularFile => Ok p
  | StatOSError e =>
      if ignore_error e
      then Raise (ArgumentTypeError
                    ("File " +:+ path_str p +:+ " does not exist"))
      else Raise (OSError e)
  | _ => Raise (ArgumentTypeError
                  ("File " +:+ path_str p +:+ " does not exist"))
  end.

(** The reading of the directory validator that the code does not follow:
    that an argument is accepted exactly when its parent is an existing
    directory. *)
Definition accepts_iff_parent_directory (env : environment) (path : string)
    (w : world) : Prop :=
  (∃ q, (ap_check_dir_exists env path w).1 = Ok q)
  ↔ fs_stat env (path_str (parent (path_of path))) = Stat Directory.

(** What the directory validator does with a path [p], given the path
    [up] it takes for the parent. *)
Definition dir_outcome (env : environment) (up p : Path) : result Path :=
  match fs_stat env (path_str up) with
  | Stat _ => Ok p
  | StatOSError e =>
      if ignore_error e
      then Raise (ArgumentTypeError
                    ("Path " +:+ path_str up +:+ " does not exist"))
      else Raise (OSError e)
  | StatValueError =>
      Raise (ArgumentTypeError
               ("Path " +:+ path_str up +:+ " does not exist"))
  end.

(** ** Version report *)

Definition fallback : string := "not found (not in Git repository?)".

Definition version_line (clitool ver : string) : string :=
  clitool +:+ " Git version " +:+ ver +:+ nl.

Definition package_line (p v : string) : string := p +:+ " " +:+ v +:+ nl.

(** The directory of the tool, in which the version query runs. *)
Definition util_path (env : environment) (clitool : string) (w : world)
  : result Path :=
  match fs_resolve env (cwd w) (path_of clitool) with
  | Ok resolved => Ok (parent resolved)
  | Raise e => Raise e
  end.

(** The version of the first distribution found for a package, and the
    exception the lookup of a package ends with. *)
Definition found_version (env : environment) (p : string) : option string :=
  match pkg_require env p with
  | Ok (v :: _) => Some v
  | _ => None
  end.

Definition lookup_failure (env : environment) (p : string) : option exn :=
  match pkg_require env p with
  | Ok (_ :: _) => None
  | Ok [] => Some IndexError
  | Raise e => Some e
  end.

(** The reading of the fallback that the code does not follow: that the
    fallback text is written also when the query cannot be run at all. *)
Definition falls_back (env : environment) (clitool : string)
    (packages : list string) (w : world) : Prop :=
  ∀ dir, util_path env clitool w = Ok dir →
    fs_chdir env (path_str dir) = None →
    (∃ e, git_describe env dir = Raise e)
    ∨ (∃ out, git_describe env dir = Ok out ∧ strip out = "") →
    ∃ rest, stderr (show_and_exit env clitool packages w).2
            = stderr w ++ version_line clitool fallback :: rest.

(** How a run of the version report can end: with the exit, or with the
    exception of the step that failed. *)
Definition ends_by (env : environment) (clitool : string)
    (packages : list string) (w : world) (e : exn) : Prop :=
  e = SystemExit 0
  ∨ util_path env clitool w = Raise e
  ∨ (∃ dir, util_path env clitool w = Ok dir ∧
       (fs_chdir env (path_str dir) = Some e
        ∨ git_describe env dir = Raise e))
  ∨ e = UnicodeDecodeError
  ∨ (∃ p, p ∈ packages ∧ lookup_failure env p = Some e).

(** ** The renaming loop, step by step *)

(** Does the loop body rename the node with these attributes? *)
Definition renames (ignore_inputs : bool) (h : loc → Node.t) (d : attrs)
  : bool :=
  match attr_node d with
  | Some r =>
      negb ignore_inputs || negb (String.eqb (Node.type (h r)) "input")
  | None => false
  end.

Definition suffixed (suffix : string) (n : Node.t) : Node.t :=
  Node.set_name n (Node.name n +:+ suffix).

(** The key a node gets. *)
Definition new_key (suffix : string) (ignore_inputs : bool)
    (h : loc → Node.t) (nd : string * attrs) : string :=
  if renames ignore_inputs h nd.2 then nd.1 +:+ suffix else nd.1.

(** The store and the mapping after one iteration. *)
Definition body_heap (suffix : string) (ignore_inputs : bool)
    (h : loc → Node.t) (nd : string * attrs) : loc → Node.t :=
  match attr_node nd.2 with
  | Some r =>
      if renames ignore_inputs h nd.2 then <[r := suffixed suffix (h r)]> h
      else h
  | None => h
  end.

Definition body_mapping (suffix : string) (ignore_inputs : bool)
    (h : loc → Node.t) (m : gmap string string) (nd : string * attrs)
  : gmap string string :=
  if renames ignore_inputs h nd.2 then <[nd.1 := nd.1 +:+ suffix]> m else m.

Definition loop_heap (suffix : string) (ignore_inputs : bool)
    (items : list (string * attrs)) (h : loc → Node.t) : loc → Node.t :=
  fold_left (body_heap suffix ignore_inputs) items h.

Fixpoint loop_mapping (suffix : string) (ignore_inputs : bool)
    (items : list (string * attrs)) (h : loc → Node.t)
    (m : gmap string string) : gmap string string :=
  match items with
  | [] => m
  | nd :: items' =>
      loop_mapping suffix ignore_inputs items'
        (body_heap suffix ignore_inputs h nd)
        (body_mapping suffix ignore_inputs h m nd)
  end.

(** The claim: an input node under [ignore_inputs] stays in the graph under
    its key with its name, every other node is found under the suffixed key
    with the suffixed name. *)
Definition rename_selectivity (G : DiGraph) (suffix : string)
    (ignore_inputs : bool) (w : world) : Prop :=
  ∃ G' w', rename_nodes G suffix ignore_inputs w = (Ok G', w') ∧
    ∀ key d r, (key, d) ∈ _node G → attr_node d = Some r →
      let n := heap w r in
      let n' := heap w' r in
      if ignore_inputs && String.eqb (Node.type n) "input"
      then (key, d) ∈ _node G' ∧ Node.name n' = Node.name n
      else (key +:+ suffix, d) ∈ _node G' ∧
           Node.name n' = Node.name n +:+ suffix.


(** ** Graphs, stores and environments of the examples *)

Definition gate (type : string) (name : string) : Node.t :=
  Node.mk name "" type [] [] "" "".

(** Four nodes of types AND2, AND2, DFF and OR2. *)
Definition stat_heap (r : loc) : Node.t :=
  match r with
  | 0 => gate "AND2" "u1"
  | 1 => gate "AND2" "u2"
  | 2 => gate "DFF" "q"
  | _ => gate "OR2" "u3"
  end.

Definition stat_graph : DiGraph :=
  Graph [ ("u1", Attrs (Some 0) ∅); ("u2", Attrs (Some 1) ∅);
          ("q", Attrs (Some 2) ∅); ("u3", Attrs (Some 3) ∅) ]
        [ ("u1", [("q", ∅)]); ("u2", [("q", ∅)]); ("q", [("u3", ∅)]);
          ("u3", []) ]
        ∅.

Definition stat_world : world := World stat_heap [] [] (MkPath "/" []).

(** A multiplexer [sel] fed by the input [sel_i]. *)
Definition sel_heap (r : loc) : Node.t :=
  match r with
  | 0 => gate "input" "sel_i"
  | _ => gate "MUX2_X1" "sel"
  end.

Definition sel_graph : DiGraph :=
  Graph [ ("sel_i", Attrs (Some 0) ∅); ("sel", Attrs (Some 1) ∅) ]
        [ ("sel_i", [("sel", ∅)]); ("sel", []) ]
        ∅.

Definition sel_world : world := World sel_heap [] [] (MkPath "/" []).

(** Two nodes that carry one and the same record. *)
Definition shared_graph : DiGraph :=
  Graph [ ("u1", Attrs (Some 1) ∅); ("u2", Attrs (Some 1) ∅) ]
        [ ("u1", [("u2", ∅)]); ("u2", []) ]
        ∅.

Definition no_node : Node.t := Node.mk "" "" "" [] [] "" "".

(** A small file system: the working directory [/work] holds the regular
    file [netlist.json] and nothing else, and a name of more than 255
    bytes is refused by the system; git is not installed and no package
    is. *)
Definition resolve_example (here p : Path) : result Path :=
  Ok (if String.eqb (root p) ""
      then MkPath (root here) (parts here ++ parts p) else p).

Definition stat_example (s : string) : stat_outcome :=
  if Nat.ltb 255 (String.length s) then StatOSError ENAMETOOLONG
  else if bool_decide (s ∈ ["netlist.json"; "/work/netlist.json"])
  then Stat RegularFile
  else if bool_decide (s ∈ ["."; "/"; "/work"]) then Stat Directory
  else StatOSError ENOENT.

Definition chdir_example (s : string) : option exn :=
  match stat_example s with
  | Stat Directory => None
  | Stat _ => Some (NotADirectoryError s)
  | _ => Some (FileNotFoundError s)
  end.

Definition env_example : environment :=
  Env 8 {[ "DFF_X1" ]} stat_example resolve_example chdir_example
      (λ _, Raise (FileNotFoundError "git"))
      (λ p, Raise (DistributionNotFound p)).

(** A name of 256 bytes. *)
Definition long_name : string := String.concat "" (replicate 256 "a").

Definition world_example : world :=
  World (λ _, no_node) [] [] (MkPath "/" ["work"]).

(** ** Deciding the side conditions on concrete graphs *)

#[local] Instance wf_graph_dec G : Decision (wf_graph G).
Proof. unfold wf_graph. apply _. Defined.

#[local] Instance all_records_dec items : Decision (all_records items).
Proof. unfold all_records. apply _. Defined.

#[local] Instance lockstep_dec G h : Decision (lockstep G h).
Proof. unfold lockstep. apply _. Defined.

Ltac by_compute := apply (bool_decide_unpack _); vm_compute; exact I.

(** ** Graphs of the further examples *)

(** A graph whose second node carries no record. *)
Definition broken_graph : DiGraph :=
  Graph [ ("sel", Attrs (Some 1) ∅); ("x", Attrs None ∅);
          ("sel_i", Attrs (Some 0) ∅) ]
        [ ("sel", []); ("x", []); ("sel_i", []) ]
        ∅.

(** The four nodes of [stat_graph] in another order. *)
Definition stat_graph_shuffled : DiGraph :=
  Graph [ ("u3", Attrs (Some 3) ∅); ("q", Attrs (Some 2) ∅);
          ("u2", Attrs (Some 1) ∅); ("u1", Attrs (Some 0) ∅) ]
        [ ("u3", []); ("q", [("u3", ∅)]); ("u2", [("q", ∅)]);
          ("u1", [("q", ∅)]) ]
        ∅.

(** The file system of [env_example] with git installed, run inside a
    repository, and numpy as the only installed package. *)
Definition env_git : environment :=
  Env 8 {[ "DFF_X1" ]} stat_example resolve_example chdir_example
      (λ _, Ok ("v1.2-3-gabc" +:+ nl))
      (λ p, if String.eqb p "numpy" then Ok ["1.21.0"]
            else Raise (DistributionNotFound p)).

(** ** Paths in normal form *)

(** [has_char c s]: the character occurs in the text. *)
Fixpoint has_char (c : ascii) (s : string) : bool :=
  match s with
  | EmptyString => false
  | String c' s' => Ascii.eqb c' c || has_char c s'
  end.

(** A component as [Path] keeps them: not empty, not ["."], no slash. *)
Definition is_component (x : string) : bool :=
  keep_component x && negb (has_char "/" x).

(** What [path_of] produces: one of the three roots and proper
    components. *)
Definition normal_path (p : Path) : Prop :=
  root p ∈ [""; "/"; "//"] ∧ Forall (λ x, is_component x = true) (parts p).

(** ** Graphs without inputs *)

(** No node of the graph carries a record of type ["input"]. *)
Definition no_inputs (h : loc → Node.t) (items : list (string * attrs))
  : Prop :=
  Forall (λ nd, gate_of h nd.2 ≠ Some "input") items.

#[local] Instance no_inputs_dec h items : Decision (no_inputs h items).
Proof. unfold no_inputs. apply _. Defined.

(** ** Types as numpy holds them *)

(** The last character of a text. *)
Fixpoint last_char (s : string) : option ascii :=
  match s with
  | EmptyString => None
  | String c EmptyString => Some c
  | String _ s' => last_char s'
  end.

(** A text of [k] NUL characters. *)
Fixpoint nuls (k : nat) : string :=
  match k with
  | 0 => EmptyString
  | S k' => String nul (nuls k')
  end.

(** The statistics as C3 words them, over the types as the records hold
    them. *)
Definition stat_claim (env : environment) (G : DiGraph) (w : world) : Prop :=
  let gates := gate_types (heap w) G in
  ∃ types : list string,
    StronglySorted str_lt types ∧
    (∀ t, t ∈ types ↔ t ∈ gates) ∧
    print_graph_stat env G w
    = (Ok tt,
       World (heap w)
             (log w ++
                ((λ t, stat_line t (occurrences t gates)) <$> types) ++
                [header env])
             (stderr w) (cwd w)).

(** Two nodes whose types differ by a trailing NUL character. *)
Definition nul_heap (r : loc) : Node.t :=
  match r with
  | 0 => gate (String "A" (String nul "")) "u1"
  | _ => gate "A" "u2"
  end.

Definition nul_graph : DiGraph :=
  Graph [ ("u1", Attrs (Some 0) ∅); ("u2", Attrs (Some 1) ∅) ]
        [ ("u1", []); ("u2", []) ]
        ∅.

Definition nul_world : world := World nul_heap [] [] (MkPath "/" []).

(** * Properties *)

(** ** Running computations *)

Lemma run_bind {A B} (c : M A) (f : A → M B) (w : world) :
  (c ≫= f) w =
  match c w with
  | (Ok a, w') => f a w'
  | (Raise e, w') => (Raise e, w')
  end.
Proof. reflexivity. Qed.

Lemma run_ret {A} (a : A) (w : world) : (mret a : M A) w = (Ok a, w).
Proof. reflexivity. Qed.

Lemma world_eta (w : world) :
  World (heap w) (log w) (stderr w) (cwd w) = w.
Proof. by destruct w. Qed.

(** A loop whose body neither raises nor touches the world is a fold. *)
Lemma for_fold_pure {A B} (f : B → A → M B) (g : B → A → B) l b w :
  (∀ b x, x ∈ l → f b x w = (Ok (g b x), w)) →
  for_fold f b l w = (Ok (fold_left g l b), w).
Proof.
  revert b. induction l as [|x l IH]; intros b Hf; simpl; [done|].
  rewrite run_bind, Hf by left.
  apply IH. intros; apply Hf. by right.
Qed.

Lemma fold_left_snoc_filter {A} (P : A → bool) (l acc : list A) :
  fold_left (λ acc x, if P x then acc ++ [x] else acc) l acc
  = acc ++ List.filter P l.
Proof.
  revert acc. induction l as [|x l IH]; intros acc; simpl.
  - by rewrite app_nil_r.
  - rewrite IH. destruct (P x); [|done]. by rewrite <- List.app_assoc.
Qed.

Lemma elem_of_filter_bool {A} (P : A → bool) (l : list A) (x : A) :
  x ∈ List.filter P l ↔ x ∈ l ∧ P x = true.
Proof. by rewrite !list_elem_of_In, filter_In. Qed.

Lemma string_app_assoc (a b c : string) : (a +:+ b) +:+ c = a +:+ b +:+ c.
Proof.
  induction a as [|x a IH]; [done|].
  cbv [String.append] in *; fold String.append in *. by rewrite IH.
Qed.

Lemma string_app_nil_r (a : string) : a +:+ "" = a.
Proof.
  induction a as [|x a IH]; [done|].
  cbv [String.append] in *; fold String.append in *. by rewrite IH.
Qed.

Lemma string_app_cons (x : ascii) (a b : string) :
  String x a +:+ b = String x (a +:+ b).
Proof. reflexivity. Qed.

Lemma string_app_length (a b : string) :
  String.length (a +:+ b) = String.length a + String.length b.
Proof.
  induction a as [|x a IH]; [done|].
  rewrite string_app_cons. simpl. by rewrite IH.
Qed.

(** ** Register extraction *)

Lemma get_registers_run env G w :
  get_registers env G w
  = (Ok (List.filter (is_register env (heap w)) (nodes_values G)), w).
Proof.
  unfold get_registers.
  rewrite (for_fold_pure _
    (λ acc d, if is_register env (heap w) d then acc ++ [d] else acc)).
  - by rewrite fold_left_snoc_filter.
  - intros acc d _. unfold collect_register, is_register.
    destruct (attr_node d) as [r|]; [|done].
    rewrite run_bind. unfold deref. by case_bool_decide.
Qed.

(** C2: [get_registers] returns the attribute dictionaries of exactly the
    qualifying nodes, in iteration order; the result is empty when no node
    qualifies, and the world (the [Node] objects included) is left as it
    was. *)
Theorem get_registers_spec (env : environment) (G : DiGraph) (w : world) :
  let qualifies := is_register env (heap w) in
  get_registers env G w = (Ok (List.filter qualifies (nodes_values G)), w) ∧
  (∀ d : attrs, (∃ rs, (get_registers env G w).1 = Ok rs ∧ d ∈ rs)
                ↔ d ∈ nodes_values G ∧ qualifies d = true) ∧
  (Forall (λ d, qualifies d = false) (nodes_values G)
   ↔ (get_registers env G w).1 = Ok []).
Proof.
  intros qualifies. subst qualifies. rewrite get_registers_run. simpl.
  split; [done|]. split.
  - intros d. split.
    + intros (rs & [= <-] & Hd). by apply elem_of_filter_bool.
    + intros Hd. eexists; split; [done|]. by apply elem_of_filter_bool.
  - induction (nodes_values G) as [|d l IH]; simpl.
    + split; [done|constructor].
    + rewrite Forall_cons. destruct (is_register env (heap w) d) eqn:Hq.
      * split; [intros [[=] _]|intros [=]].
      * rewrite <- IH. tauto.
Qed.

(** ** Port printing *)

Lemma print_ports_loop ports in_string out_string w :
  for_fold print_ports_body (in_string, out_string) ports w
  = (Ok (in_string +:+ listing (keys (List.filter is_input ports)),
         out_string +:+ listing (keys (List.filter is_not_input ports))), w).
Proof.
  revert in_string out_string.
  induction ports as [|[port_name port] ports IH]; intros in_string out_string.
  - simpl. by rewrite !string_app_nil_r.
  - cbn [for_fold]. rewrite run_bind.
    unfold print_ports_body at 1. cbn [List.filter].
    unfold is_not_input, is_input; cbn [snd].
    destruct (String.eqb (Port.type port) "input"); rewrite run_ret, IH;
      cbn [negb keys fmap list_fmap fst listing];
      by rewrite !string_app_assoc.
Qed.

(** C6: [print_ports] emits four records: the rule, the line of the ports
    whose type is ["input"], the line of all the other ports, the rule; the
    names on a line come in the iteration order of the mapping. *)
Theorem print_ports_spec (env : environment) (ports : pydict Port.t)
    (w : world) :
  print_ports env ports w
  = (Ok tt,
     World (heap w)
           (log w ++
              [ header env;
                "Inputs:  " +:+ listing (keys (List.filter is_input ports));
                "Outputs: " +:+
                  listing (keys (List.filter is_not_input ports));
                header env ])
           (stderr w) (cwd w)).
Proof.
  unfold print_ports. rewrite run_bind, print_ports_loop.
  unfold mbind, M_bind, logger_info; simpl.
  by rewrite <- !List.app_assoc.
Qed.

(** The partition of the specification's example. *)
Example print_ports_example env w :
  log (print_ports env
         [ ("a", Port.mk "a" [] "input" 1); ("b", Port.mk "b" [] "output" 1);
           ("c", Port.mk "c" [] "input" 1) ] w).2
  = log w ++ [header env; "Inputs:  a c "; "Outputs: b "; header env].
Proof.
  unfold print_ports. rewrite run_bind, print_ports_loop.
  unfold mbind, M_bind, logger_info; simpl.
  by rewrite <- !List.app_assoc.
Qed.

(** ** Paths: splitting and joining *)

Lemma string_app_nil_l (s : string) : "" +:+ s = s.
Proof. reflexivity. Qed.

Lemma split_on_no_sep sep s : has_char sep s = false → split_on sep s = [s].
Proof.
  induction s as [|c s IH]; [done|]. cbn [has_char split_on].
  intros [Hc Hs]%orb_false_elim. rewrite Hc, IH by done. done.
Qed.

Lemma split_on_app sep x rest :
  has_char sep x = false →
  split_on sep (x +:+ String sep rest) = x :: split_on sep rest.
Proof.
  induction x as [|c x IH]; intros Hx.
  - rewrite string_app_nil_l. cbn [split_on]. by rewrite Ascii.eqb_refl.
  - cbn [has_char] in Hx. apply orb_false_elim in Hx as [Hc Hx].
    rewrite string_app_cons. cbn [split_on]. by rewrite Hc, IH.
Qed.

Lemma split_on_components sep s :
  Forall (λ x, has_char sep x = false) (split_on sep s).
Proof.
  induction s as [|c s IH]; [by repeat constructor|]. cbn [split_on].
  destruct (Ascii.eqb c sep) eqn:Hc; [by constructor|].
  destruct (split_on sep s) as [|x xs]; [by repeat constructor; simpl; rewrite Hc|].
  apply Forall_cons in IH as [Hx Hxs]. constructor; [|done].
  cbn [has_char]. by rewrite Hc, Hx.
Qed.

Lemma split_on_join parts :
  Forall (λ x, has_char "/" x = false) parts → parts ≠ [] →
  split_on "/" (join "/" parts) = parts.
Proof.
  induction parts as [|x parts IH]; intros Hall Hne; [done|].
  apply Forall_cons in Hall as [Hx Hall]. destruct parts as [|y parts].
  - by apply split_on_no_sep.
  - change (join "/" (x :: y :: parts))
      with (x +:+ String "/" (join "/" (y :: parts))).
    rewrite split_on_app by done. f_equal. by apply IH.
Qed.

Lemma is_component_inv x :
  is_component x = true →
  keep_component x = true ∧ has_char "/" x = false ∧
  ∃ c x', x = String c x' ∧ Ascii.eqb c "/" = false.
Proof.
  unfold is_component. intros [Hk Hs]%andb_true_iff.
  apply negb_true_iff in Hs. split; [done|]. split; [done|].
  destruct x as [|c x']; [done|]. exists c, x'. split; [done|].
  cbn [has_char] in Hs. by apply orb_false_elim in Hs as [? _].
Qed.

Lemma filter_components parts :
  Forall (λ x, is_component x = true) parts →
  List.filter keep_component parts = parts.
Proof.
  induction 1 as [|x parts Hx _ IH]; [done|]. simpl.
  destruct (is_component_inv x Hx) as (-> & _). by rewrite IH.
Qed.

Lemma components_no_slash parts :
  Forall (λ x, is_component x = true) parts →
  Forall (λ x, has_char "/" x = false) parts.
Proof.
  intros Hall. eapply Forall_impl; [exact Hall|].
  intros x Hx. apply (is_component_inv x Hx).
Qed.

(** The text of the components, as [Path] reads it back. *)
Lemma read_back_join parts :
  Forall (λ x, is_component x = true) parts →
  List.filter keep_component (split_on "/" (join "/" parts)) = parts ∧
  lstrip_char "/" (join "/" parts) = join "/" parts.
Proof.
  intros Hall. destruct parts as [|x parts]; [done|]. split.
  - rewrite split_on_join; [by apply filter_components|
      by apply components_no_slash|done].
  - apply Forall_cons in Hall as [Hx _].
    destruct (is_component_inv x Hx) as (_ & _ & c & x' & -> & Hc).
    destruct parts as [|y parts].
    + simpl. by rewrite Hc.
    + change (join "/" (String c x' :: y :: parts))
        with (String c (x' +:+ "/" +:+ join "/" (y :: parts))).
      simpl. by rewrite Hc.
Qed.

Lemma splitroot_no_slash c s :
  Ascii.eqb c "/" = false → splitroot (String c s) = ("", String c s).
Proof.
  intros Hc. unfold splitroot.
  destruct c as [[] [] [] [] [] [] [] []]; try done.
Qed.

Lemma path_of_str p : normal_path p → path_of (path_str p) = p.
Proof.
  destruct p as [r ps]. intros [Hr Hps]. cbn [root parts] in *.
  destruct (read_back_join ps Hps) as [Hback Hstrip].
  unfold path_str, path_of. cbn [root parts].
  apply elem_of_cons in Hr as [->|Hr]; [|apply elem_of_cons in Hr as [->|Hr]].
  - cbn [String.eqb]. destruct ps as [|x ps]; [done|].
    apply Forall_cons in Hps as [Hx Hps'].
    destruct (is_component_inv x Hx) as (_ & _ & c & x' & -> & Hc).
    assert (∃ t, join "/" (String c x' :: ps) = String c t) as [t Ht].
    { destruct ps as [|y ps]; [by eexists|].
      change (join "/" (String c x' :: y :: ps))
        with (String c (x' +:+ "/" +:+ join "/" (y :: ps))). by eexists. }
    rewrite Ht, splitroot_no_slash by done. rewrite <- Ht. by rewrite Hback.
  - change (String.eqb "/" "") with false. cbn beta iota.
    change ("/" +:+ join "/" ps) with (String "/" (join "/" ps)).
    unfold splitroot.
    change (lstrip_char "/" (String "/" (join "/" ps)))
      with (lstrip_char "/" (join "/" ps)).
    rewrite Hstrip. cbn [String.length].
    replace (S (String.length (join "/" ps))
             - String.length (join "/" ps)) with 1 by lia.
    cbn [Nat.eqb]. by rewrite Hback.
  - apply list_elem_of_singleton in Hr as ->.
    change (String.eqb "//" "") with false. cbn beta iota.
    change ("//" +:+ join "/" ps)
      with (String "/" (String "/" (join "/" ps))).
    unfold splitroot.
    change (lstrip_char "/" (String "/" (String "/" (join "/" ps))))
      with (lstrip_char "/" (join "/" ps)).
    rewrite Hstrip. cbn [String.length].
    replace (S (S (String.length (join "/" ps)))
             - String.length (join "/" ps)) with 2 by lia.
    cbn [Nat.eqb]. by rewrite Hback.
Qed.

Lemma normal_path_of s : normal_path (path_of s).
Proof.
  unfold path_of. destruct (splitroot s) as [r rel] eqn:E. split.
  - cbn [root]. unfold splitroot in E.
    destruct s as [|c s']; [injection E as <- _; by left|].
    destruct c as [[] [] [] [] [] [] [] []];
      try (injection E as <- _; by left).
    destruct (Nat.eqb _ 2); injection E as <- _;
      [right; right; by left|right; by left].
  - cbn [parts]. pose proof (split_on_components "/" rel) as Hc.
    induction Hc as [|x l Hx _ IH]; [constructor|]. simpl.
    destruct (keep_component x) eqn:Hk; [|done]. constructor; [|done].
    unfold is_component. by rewrite Hk, Hx.
Qed.

(** ** Path validators *)

Lemma prefix_app (s t : string) : String.prefix s (s +:+ t) = true.
Proof.
  induction s as [|c s IH]; [by destruct t|].
  rewrite string_app_cons. simpl. rewrite IH.
  by destruct (ascii_dec c c).
Qed.

Lemma contains_app (a s b : string) : contains (a +:+ s +:+ b) s = true.
Proof.
  induction a as [|c a IH].
  - change ("" +:+ s +:+ b) with (s +:+ b).
    pose proof (prefix_app s b) as Hp.
    destruct (s +:+ b); cbn [contains]; by rewrite Hp.
  - rewrite string_app_cons. simpl. rewrite IH. apply orb_true_r.
Qed.

Lemma ap_check_file_exists_run env file_path w :
  ap_check_file_exists env file_path w
  = (file_outcome env (path_of file_path), w).
Proof.
  unfold ap_check_file_exists, file_outcome, is_file. rewrite run_bind.
  destruct (fs_stat env _) as [[]|e|]; try done.
  by destruct (ignore_error e).
Qed.

Lemma ap_check_dir_exists_run env path w :
  ap_check_dir_exists env path w
  = (dir_outcome env (parent (path_of path)) (path_of path), w).
Proof.
  unfold ap_check_dir_exists, dir_outcome, exists_. rewrite run_bind.
  destruct (fs_stat env _) as [k|e|]; try done.
  by destruct (ignore_error e).
Qed.

(** C5, as worded, fails: the argument [netlist.json/x] is accepted although
    [netlist.json] is a regular file and no directory.  And under a parent
    whose name the system refuses, the error of the lookup is raised and
    not the error of the parser. *)
Lemma ap_check_dir_exists_parent_file :
  fs_stat env_example "netlist.json" = Stat RegularFile ∧
  (ap_check_dir_exists env_example "netlist.json/x" world_example).1
  = Ok (MkPath "" ["netlist.json"; "x"]) ∧
  ¬ accepts_iff_parent_directory env_example "netlist.json/x" world_example ∧
  (ap_check_dir_exists env_example (long_name +:+ "/x") world_example).1
  = Raise (OSError ENAMETOOLONG).
Proof.
  split; [reflexivity|]. split; [reflexivity|].
  split; [|vm_compute; reflexivity].
  intros [H _]. by specialize (H (ex_intro _ _ eq_refl)).
Qed.

(** C5 (amended): [ap_check_dir_exists] looks up the parent that pathlib
    computes from the text of the argument, the path less its last
    component, or the path itself when it has no component.  It succeeds
    exactly when something exists under that name, a directory or not,
    whatever the status of the path itself, and then returns the path as
    built from the argument, not resolved.  When nothing exists under the
    name it raises the parser error that names the parent, and another
    failure of the lookup is raised as it is. *)
Theorem ap_check_dir_exists_spec (env : environment) (path : string)
    (w : world) :
  let p := path_of path in
  let up := parent p in
  ap_check_dir_exists env path w = (dir_outcome env up p, w) ∧
  ((∃ q, (ap_check_dir_exists env path w).1 = Ok q)
     ↔ ∃ k, fs_stat env (path_str up) = Stat k) ∧
  (∀ r ps x, normal_path (MkPath r (ps ++ [x])) →
     ap_check_dir_exists env (path_str (MkPath r (ps ++ [x]))) w
     = (dir_outcome env (MkPath r ps) (MkPath r (ps ++ [x])), w)) ∧
  (∀ r, r ∈ [""; "/"; "//"] →
     ap_check_dir_exists env (path_str (MkPath r [])) w
     = (dir_outcome env (MkPath r []) (MkPath r []), w)).
Proof.
  intros p up. subst p up. split; [apply ap_check_dir_exists_run|].
  split; [|split].
  - rewrite ap_check_dir_exists_run. unfold dir_outcome. cbn [fst].
    destruct (fs_stat env _) as [k|e|].
    + split; [by eexists|]. intros _. by eexists.
    + split; [|by intros [k [=]]]. intros [q Hq].
      by destruct (ignore_error e).
    + split; [by intros [q [=]]|by intros [k [=]]].
  - intros r ps x Hn. rewrite ap_check_dir_exists_run, path_of_str by done.
    unfold parent. cbn [root parts]. by rewrite removelast_last.
  - intros r Hr. rewrite ap_check_dir_exists_run, path_of_str; [done|].
    split; [done|constructor].
Qed.

(** C4, as worded, fails: for the existing relative file the validator
    returns the path as typed and not its resolution; for a missing file
    typed with a leading [./] the message names the normalized path; and
    for a name the system refuses the error of the lookup is raised, not
    the error of the parser. *)
Lemma ap_check_file_exists_not_resolved_nor_literal :
  ((ap_check_file_exists env_example "netlist.json" world_example).1
     = Ok (MkPath "" ["netlist.json"]) ∧
   ¬ returns_resolved env_example "netlist.json" world_example) ∧
  ((ap_check_file_exists env_example "./missing.json" world_example).1
     = Raise (ArgumentTypeError "File missing.json does not exist") ∧
   ¬ message_has_argument env_example "./missing.json" world_example) ∧
  ((ap_check_file_exists env_example long_name world_example).1
     = Raise (OSError ENAMETOOLONG) ∧
   ¬ fails_with_parser_error env_example long_name world_example).
Proof.
  split; [|split]; (split; [vm_compute; reflexivity|]).
  - intros H. by specialize (H _ eq_refl).
  - intros H. by specialize (H _ eq_refl).
  - intros H. destruct (H (OSError ENAMETOOLONG)) as [msg Hmsg]; [|done].
    vm_compute. reflexivity.
Qed.

(** C4 (amended): [ap_check_file_exists] succeeds exactly when the path
    built from the argument is a regular file; it then returns that path as
    built, unresolved.  When the lookup finds no regular file it raises the
    parser error whose message carries the text of the path as pathlib
    normalizes it, which is the argument itself when the argument is the
    text of a path in normal form; another failure of the lookup is raised
    as it is. *)
Theorem ap_check_file_exists_spec (env : environment) (file_path : string)
    (w : world) :
  let p := path_of file_path in
  let run := ap_check_file_exists env file_path w in
  run = (file_outcome env p, w) ∧
  ((∃ q, run.1 = Ok q) ↔ fs_stat env (path_str p) = Stat RegularFile) ∧
  (∀ q, run.1 = Ok q → q = p) ∧
  (∀ msg, run.1 = Raise (ArgumentTypeError msg) →
     msg = "File " +:+ path_str p +:+ " does not exist" ∧
     contains msg (path_str p) = true) ∧
  (∀ e, run.1 = Raise (OSError e) →
     fs_stat env (path_str p) = StatOSError e ∧ ignore_error e = false) ∧
  (∀ q, normal_path q →
     ap_check_file_exists env (path_str q) w = (file_outcome env q, w)).
Proof.
  intros p run. subst p run. rewrite ap_check_file_exists_run. cbn [fst].
  split; [done|]. unfold file_outcome.
  split; [|split; [|split; [|split]]].
  - destruct (fs_stat env _) as [[]|e|]; try (split; [by intros [q [=]]|done]).
    + split; [done|]. intros _. by eexists.
    + split; [|done]. intros [q Hq]. by destruct (ignore_error e).
  - intros q. destruct (fs_stat env _) as [[]|e|]; try done.
    + by intros [= <-].
    + by destruct (ignore_error e).
  - intros msg Hmsg.
    assert (msg = "File " +:+ path_str (path_of file_path) +:+
                    " does not exist") as ->.
    { destruct (fs_stat env _) as [[]|e|]; try by injection Hmsg.
      - done.
      - destruct (ignore_error e); [by injection Hmsg|done]. }
    split; [done|apply contains_app].
  - intros e. destruct (fs_stat env _) as [[]|e'|]; try done.
    destruct (ignore_error e') eqn:E; [done|]. by intros [= <-].
  - intros q Hq. by rewrite ap_check_file_exists_run, path_of_str.
Qed.

(** An argument that is already in normal form appears in the message as
    it was typed; a new file in an existing directory is accepted and one
    in a missing directory is refused with the name of the directory. *)
Example validators_examples :
  (ap_check_file_exists env_example "/work/missing.json" world_example).1
  = Raise (ArgumentTypeError "File /work/missing.json does not exist") ∧
  (ap_check_dir_exists env_example "/work/out.json" world_example).1
  = Ok (MkPath "/" ["work"; "out.json"]) ∧
  (ap_check_dir_exists env_example "/no/such/dir/newfile.txt"
     world_example).1
  = Raise (ArgumentTypeError "Path /no/such/dir does not exist").
Proof. by repeat split. Qed.

(** ** Version report *)

(** C9, as worded, fails: where git cannot be started the exception of the
    subprocess call propagates and nothing is written. *)
Lemma show_and_exit_without_git :
  show_and_exit env_example "fi_injector.py" [] world_example
  = (Raise (FileNotFoundError "git"), world_example) ∧
  ¬ falls_back env_example "fi_injector.py" [] world_example.
Proof.
  split; [reflexivity|].
  intros H. destruct (H (MkPath "/" ["work"])) as [rest Hrest];
    [reflexivity|reflexivity|left; by eexists|].
  vm_compute in Hrest. discriminate.
Qed.

Lemma found_version_Some env p v :
  found_version env p = Some v → ∃ rest, pkg_require env p = Ok (v :: rest).
Proof.
  unfold found_version. destruct (pkg_require env p) as [[|v' rest]|e];
    try done. intros [= ->]. by eexists.
Qed.

Lemma report_packages_cons env p packages w :
  for_fold (report_package env) tt (p :: packages) w
  = match pkg_require env p with
    | Ok (v :: _) =>
        for_fold (report_package env) tt packages
          (World (heap w) (log w) (stderr w ++ [package_line p v]) (cwd w))
    | Ok [] => (Raise IndexError, w)
    | Raise e => (Raise e, w)
    end.
Proof.
  cbn [for_fold]. rewrite run_bind. unfold report_package at 1.
  rewrite run_bind. unfold require_version.
  by destruct (pkg_require env p) as [[|v rest]|e].
Qed.

Lemma report_packages_ok env packages vs w :
  mapM (found_version env) packages = Some vs →
  for_fold (report_package env) tt packages w
  = (Ok tt, World (heap w) (log w)
                  (stderr w ++ zip_with package_line packages vs) (cwd w)).
Proof.
  revert vs w. induction packages as [|p packages IH]; intros vs w Hvs.
  - simplify_eq/=. by rewrite app_nil_r, world_eta.
  - rewrite mapM_Some in Hvs. apply Forall2_cons_inv_l in Hvs
      as (v & vs' & Hv & Hvs & ->).
    apply mapM_Some in Hvs. apply found_version_Some in Hv as [rest Hv].
    rewrite report_packages_cons, Hv, (IH vs') by done. simpl.
    by rewrite <- List.app_assoc.
Qed.

Lemma report_packages_outcome env packages w :
  ∃ w', stderr w `prefix_of` stderr w' ∧
    (for_fold (report_package env) tt packages w = (Ok tt, w')
     ∨ ∃ p e, p ∈ packages ∧ lookup_failure env p = Some e ∧
              for_fold (report_package env) tt packages w = (Raise e, w')).
Proof.
  revert w. induction packages as [|p packages IH]; intros w.
  - exists w. split; [done|]. by left.
  - rewrite report_packages_cons. unfold lookup_failure.
    destruct (pkg_require env p) as [[|v rest]|e] eqn:Hp.
    + exists w. split; [done|]. right. exists p, IndexError.
      rewrite Hp. split; [by left|done].
    + set (w1 := World _ _ _ _).
      destruct (IH w1) as (w' & Hpre & Hres). exists w'. split.
      * etrans; [|exact Hpre]. subst w1. simpl. by apply prefix_app_r.
      * destruct Hres as [->|(q & e & Hq & He & ->)]; [by left|].
        right. exists q, e. split; [by right|done].
    + exists w. split; [done|]. right. exists p, e.
      rewrite Hp. split; [by left|done].
Qed.

Lemma show_and_exit_run env clitool packages w :
  show_and_exit env clitool packages w =
  match util_path env clitool w with
  | Raise e => (Raise e, w)
  | Ok dir =>
      match fs_chdir env (path_str dir) with
      | Some e => (Raise e, w)
      | None =>
          let w0 := World (heap w) (log w) (stderr w) dir in
          match git_describe env dir with
          | Raise e => (Raise e, w0)
          | Ok out =>
              if is_ascii (strip out) then
                let ver := if String.eqb (strip out) "" then fallback
                           else strip out in
                match for_fold (report_package env) tt packages
                        (World (heap w) (log w)
                               (stderr w ++ [version_line clitool ver]) dir)
                with
                | (Ok _, w') => (Raise (SystemExit 0), w')
                | (Raise e, w') => (Raise e, w')
                end
              else (Raise UnicodeDecodeError, w0)
          end
      end
  end.
Proof.
  unfold show_and_exit, util_path. rewrite run_bind.
  unfold path_resolve at 1.
  destruct (fs_resolve env (cwd w) (path_of clitool)) as [resolved|e];
    [|done].
  rewrite run_bind. unfold os_chdir.
  destruct (fs_chdir env _) as [e|]; [done|].
  unfold set_cwd at 1. rewrite run_bind. unfold run_git_describe at 1.
  cbn [cwd]. destruct (git_describe env _) as [out|e]; [|done].
  rewrite run_bind. unfold decode_ascii.
  destruct (is_ascii (strip out)); [|done].
  rewrite run_ret, run_bind. unfold stderr_write at 1.
  rewrite run_bind. cbn [heap log stderr cwd].
  unfold version_line. cbv zeta.
  by destruct (for_fold _ _ _ _) as [[[]|e] w'].
Qed.

(** C9 (amended): [show_and_exit] never returns normally: it ends with
    [SystemExit(0)] or with the exception of the step that failed (the
    resolution of the tool's path, the change of directory, the start of
    git, the decoding of its output, the lookup of a package or the index
    into an empty result).  When git cannot be started its exception
    propagates and nothing is written, no fallback either.  When git runs
    and prints nothing the fallback text is written in place of the
    revision, and when moreover a distribution is found for every package
    the run writes all its lines and ends with exit status 0. *)
Theorem show_and_exit_spec (env : environment) (clitool : string)
    (packages : list string) (w : world) :
  let run := show_and_exit env clitool packages w in
  (∃ e, run.1 = Raise e ∧ ends_by env clitool packages w e) ∧
  (∀ dir, util_path env clitool w = Ok dir ∧
          fs_chdir env (path_str dir) = None →
     (∀ e, git_describe env dir = Raise e →
        run = (Raise e, World (heap w) (log w) (stderr w) dir)) ∧
     (∀ out, git_describe env dir = Ok out ∧ is_ascii (strip out) = true →
        let ver := if String.eqb (strip out) "" then fallback
                   else strip out in
        (∃ rest, stderr run.2
                 = stderr w ++ version_line clitool ver :: rest) ∧
        (∀ vs, mapM (found_version env) packages = Some vs →
               run = (Raise (SystemExit 0),
                      World (heap w) (log w)
                            (stderr w ++ version_line clitool ver ::
                               zip_with package_line packages vs) dir)))).
Proof.
  intros run. subst run. rewrite show_and_exit_run. unfold ends_by.
  destruct (util_path env clitool w) as [dir|e] eqn:Hdir.
  2:{ split; [|by intros dir' [[=] _]].
      eexists; split; [done|]. right. by left. }
  destruct (fs_chdir env (path_str dir)) as [e|] eqn:Hcd.
  { split; [|intros dir' [[= <-] ?]; congruence].
    eexists; split; [done|]. right; right; left. exists dir. auto. }
  cbv zeta. destruct (git_describe env dir) as [out|e] eqn:Hgit.
  2:{ split.
      - eexists; split; [done|]. right; right; left. exists dir. auto.
      - intros dir' [[= <-] _]. split.
        + intros e' He'. rewrite Hgit in He'. by injection He' as <-.
        + intros out [Hout _]. congruence. }
  destruct (is_ascii (strip out)) eqn:Hascii.
  2:{ split.
      - eexists; split; [done|]. do 3 right. by left.
      - intros dir' [[= <-] _]. split.
        + intros e' He'. congruence.
        + intros out' [Hout ?]. rewrite Hgit in Hout. injection Hout as <-.
          congruence. }
  set (ver := if String.eqb (strip out) "" then _ else strip out).
  set (w1 := World _ _ _ _).
  destruct (report_packages_outcome env packages w1)
    as (w' & [rest Hpre] & Hres).
  split.
  - destruct Hres as [->|(p & e & Hp & He & ->)].
    + eexists; split; [done|]. by left.
    + eexists; split; [done|]. do 4 right. by exists p.
  - intros dir' [[= <-] _]. split; [intros e' He'; congruence|].
    intros out' [Hout _]. rewrite Hgit in Hout. injection Hout as <-.
    cbv zeta. fold ver. split.
    + exists rest.
      assert (stderr w' = stderr w ++ version_line clitool ver :: rest) as <-.
      { rewrite Hpre. subst w1. simpl. by rewrite <- List.app_assoc. }
      by destruct Hres as [->|(p & e & Hp & He & ->)].
    + intros vs Hvs. rewrite (report_packages_ok _ _ vs) by done.
      subst w1. simpl. by rewrite <- List.app_assoc.
Qed.

(** ** Gate statistics *)

Lemma fold_left_snoc_omap {A B} (f : A → option B) (l : list A)
    (acc : list B) :
  fold_left (λ acc x, acc ++ option_list (f x)) l acc = acc ++ omap f l.
Proof.
  revert acc. induction l as [|x l IH]; intros acc; simpl.
  - by rewrite app_nil_r.
  - rewrite IH, <- List.app_assoc. by destruct (f x).
Qed.

Lemma collect_gates_run G w :
  for_fold collect_gate [] (nodes_values G) w
  = (Ok (gate_types (heap w) G), w).
Proof.
  unfold gate_types.
  rewrite (for_fold_pure _
    (λ acc d, acc ++ option_list (gate_of (heap w) d))).
  - by rewrite fold_left_snoc_omap.
  - intros acc d _. unfold collect_gate, gate_of.
    destruct (attr_node d) as [r|]; simpl; [done|].
    by rewrite app_nil_r.
Qed.

(** *** Sorting *)

Lemma str_le_neq_lt (s t : string) : String.le s t → s ≠ t → str_lt s t.
Proof.
  unfold String.le, str_lt, String.leb, String.ltb. intros Hle Hne.
  destruct (String.compare s t) eqn:E; simpl in *; try done.
  by apply String.compare_eq_iff in E.
Qed.

Lemma occurrences_cons (t x : string) (l : list string) :
  occurrences t (x :: l)
  = (if String.eqb t x then 1 else 0) + occurrences t l.
Proof. unfold occurrences. simpl. by destruct (String.eqb t x). Qed.

Lemma occurrences_notin (t : string) (l : list string) :
  t ∉ l → occurrences t l = 0.
Proof.
  induction l as [|x l IH]; [done|]. intros Hn.
  rewrite occurrences_cons, IH by (intros ?; apply Hn; by right).
  destruct (String.eqb_spec t x) as [->|]; [|done]. destruct Hn. by left.
Qed.

Lemma insert_sorted_elem (x y : string) (l : list string) :
  y ∈ insert_sorted x l ↔ y = x ∨ y ∈ l.
Proof.
  induction l as [|z l IH]; simpl.
  - rewrite list_elem_of_singleton, elem_of_nil. tauto.
  - destruct (String.leb x z).
    + rewrite !elem_of_cons. tauto.
    + rewrite !elem_of_cons, IH. tauto.
Qed.

Lemma insert_sorted_occurrences (t x : string) (l : list string) :
  occurrences t (insert_sorted x l) = occurrences t (x :: l).
Proof.
  induction l as [|z l IH]; simpl; [done|].
  destruct (String.leb x z); [done|].
  rewrite occurrences_cons, IH, !occurrences_cons. lia.
Qed.

Lemma insert_sorted_sorted (x : string) (l : list string) :
  StronglySorted String.le l → StronglySorted String.le (insert_sorted x l).
Proof.
  induction 1 as [|z l Hs IH Hz]; simpl.
  - by repeat constructor.
  - destruct (String.leb x z) eqn:E.
    + constructor; [by constructor|].
      constructor; [unfold String.le; by rewrite E|].
      eapply Forall_impl; [exact Hz|]. intros y Hy.
      etrans; [|exact Hy]. unfold String.le. by rewrite E.
    + constructor; [done|]. apply Forall_forall. intros y Hy.
      apply insert_sorted_elem in Hy as [->|Hy].
      * destruct (total String.le x z) as [H|H]; [|done].
        unfold String.le in H. by rewrite E in H.
      * rewrite Forall_forall in Hz. by apply Hz.
Qed.

Lemma sort_sorted (l : list string) : StronglySorted String.le (sort l).
Proof.
  induction l as [|x l IH]; simpl; [constructor|].
  by apply insert_sorted_sorted.
Qed.

Lemma sort_elem (x : string) (l : list string) : x ∈ sort l ↔ x ∈ l.
Proof.
  induction l as [|y l IH]; simpl; [done|].
  rewrite insert_sorted_elem, elem_of_cons, IH. tauto.
Qed.

Lemma sort_occurrences (t : string) (l : list string) :
  occurrences t (sort l) = occurrences t l.
Proof.
  induction l as [|y l IH]; simpl; [done|].
  by rewrite insert_sorted_occurrences, !occurrences_cons, IH.
Qed.

(** *** Runs of a sorted list *)

Lemma runs_head (x : string) (l : list string) :
  ∃ c r, runs (x :: l) = (x, c) :: r.
Proof.
  simpl. destruct (runs l) as [|[y c] r]; [by eauto|].
  destruct (String.eqb_spec x y) as [->|]; eauto.
Qed.

Lemma runs_keys_elem (x : string) (l : list string) :
  x ∈ (runs l).*1 ↔ x ∈ l.
Proof.
  induction l as [|y l IH]; simpl; [done|].
  rewrite elem_of_cons, <- IH.
  destruct (runs l) as [|[z c] r]; simpl.
  - rewrite list_elem_of_singleton, elem_of_nil. tauto.
  - destruct (String.eqb_spec y z) as [->|]; simpl;
      rewrite !elem_of_cons; tauto.
Qed.

Lemma sorted_head_notin (x y : string) (l : list string) :
  StronglySorted String.le (x :: y :: l) → x ≠ y → x ∉ y :: l.
Proof.
  intros Hs Hne Hin. apply StronglySorted_inv in Hs as [Hs Hx].
  apply StronglySorted_inv in Hs as [_ Hy].
  apply Forall_cons in Hx as [Hxy _].
  apply elem_of_cons in Hin as [?|Hin]; [done|].
  rewrite Forall_forall in Hy. apply Hne.
  by apply (anti_symm String.le); [|apply Hy].
Qed.

Lemma runs_keys_sorted (l : list string) :
  StronglySorted String.le l → StronglySorted str_lt (runs l).*1.
Proof.
  induction l as [|x l IH]; intros Hs; [constructor|].
  pose proof Hs as Hs'. apply StronglySorted_inv in Hs' as [Hl Hx].
  specialize (IH Hl). destruct l as [|y l]; [by repeat constructor|].
  destruct (runs_head y l) as (c & r & Hr).
  change (runs (x :: y :: l)) with
    (match runs (y :: l) with
     | (z, c) :: r => if String.eqb x z then (z, S c) :: r
                      else (x, 1) :: (z, c) :: r
     | [] => [(x, 1)]
     end).
  rewrite Hr in IH |- *.
  destruct (String.eqb_spec x y) as [->|Hne]; [done|].
  simpl. constructor; [done|].
  apply Forall_forall. intros z Hz.
  assert (z ∈ y :: l) as Hzl by (apply runs_keys_elem; by rewrite Hr).
  apply str_le_neq_lt.
  - rewrite Forall_forall in Hx. by apply Hx.
  - intros ->. by eapply sorted_head_notin.
Qed.

Lemma str_lt_irrefl (s : string) : ¬ str_lt s s.
Proof.
  unfold str_lt, String.ltb.
  assert (String.compare s s = Eq) as ->; [|done].
  pose proof (String.compare_antisym s s) as H.
  by destruct (String.compare s s).
Qed.

Lemma runs_counts (l : list string) :
  StronglySorted String.le l →
  runs l = (λ t, (t, occurrences t l)) <$> (runs l).*1.
Proof.
  induction l as [|x l IH]; intros Hs; [done|].
  pose proof (runs_keys_sorted _ Hs) as Hk.
  pose proof Hs as Hs'. apply StronglySorted_inv in Hs' as [Hl Hx].
  specialize (IH Hl). pose proof (runs_keys_sorted _ Hl) as Hk'.
  destruct l as [|y l].
  { simpl. by rewrite occurrences_cons, String.eqb_refl. }
  destruct (runs_head y l) as (c & r & Hr).
  change (runs (x :: y :: l)) with
    (match runs (y :: l) with
     | (z, c) :: r => if String.eqb x z then (z, S c) :: r
                      else (x, 1) :: (z, c) :: r
     | [] => [(x, 1)]
     end) in *.
  rewrite Hr in IH, Hk, Hk' |- *.
  cbn [fmap list_fmap fst] in IH. injection IH as Hc Htail.
  destruct (String.eqb_spec x y) as [->|Hne]; cbn [fmap list_fmap fst].
  - f_equal.
    + by rewrite occurrences_cons, String.eqb_refl, <- Hc.
    + etrans; [exact Htail|]. apply list_fmap_ext. intros i t Ht.
      rewrite (occurrences_cons t y (y :: l)).
      destruct (String.eqb_spec t y) as [->|]; [|done].
      cbn [fmap list_fmap fst] in Hk'.
      apply StronglySorted_inv in Hk' as [_ Hlt].
      rewrite Forall_forall in Hlt.
      destruct (str_lt_irrefl y). apply Hlt.
      by eapply list_elem_of_lookup_2.
  - assert (x ∉ y :: l) as Hnotin by by apply sorted_head_notin.
    f_equal; [|f_equal].
    + by rewrite occurrences_cons, String.eqb_refl,
        (occurrences_notin x (y :: l)).
    + rewrite (occurrences_cons y x).
      destruct (String.eqb_spec y x) as [->|]; [done|]. by rewrite <- Hc.
    + etrans; [exact Htail|]. apply list_fmap_ext. intros i t Ht.
      rewrite (occurrences_cons t x).
      destruct (String.eqb_spec t x) as [->|]; [|done].
      destruct Hnotin. apply runs_keys_elem. rewrite Hr. right.
      by eapply list_elem_of_lookup_2.
Qed.

(** *** The report *)

Lemma print_lines_run (pre r : list (string * nat)) (w : world) :
  for_fold (print_stat_line (pre ++ r).*1 (pre ++ r).*2) tt
           (seq (List.length pre) (List.length r)) w
  = (Ok tt, World (heap w)
                  (log w ++ ((λ p, stat_line p.1 p.2) <$> r))
                  (stderr w) (cwd w)).
Proof.
  revert pre w. induction r as [|p r IH]; intros pre w.
  - simpl. by rewrite app_nil_r, world_eta.
  - cbn [List.length seq for_fold]. rewrite run_bind.
    unfold print_stat_line at 1.
    rewrite !list_lookup_fmap, list_lookup_middle by done. cbn [fmap option_fmap option_map].
    unfold logger_info at 1.
    replace (pre ++ p :: r) with ((pre ++ [p]) ++ r)
      by by rewrite <- List.app_assoc.
    replace (S (List.length pre)) with (List.length (pre ++ [p]))
      by (rewrite length_app; simpl; lia).
    rewrite IH. simpl. by rewrite <- List.app_assoc.
Qed.

Lemma print_graph_stat_run env G w :
  print_graph_stat env G w
  = (Ok tt,
     World (heap w)
           (log w ++
              ((λ p, stat_line p.1 p.2) <$>
                 runs (sort (np_array (gate_types (heap w) G)))) ++
              [header env])
           (stderr w) (cwd w)).
Proof.
  unfold print_graph_stat. rewrite run_bind, collect_gates_run.
  unfold np_unique. set (r := runs _). rewrite run_bind.
  rewrite length_fmap. rewrite (print_lines_run [] r).
  unfold logger_info. simpl. by rewrite <- List.app_assoc.
Qed.

(** The records are those of the claim, read over any list of types that
    numpy takes for the collected one. *)
Lemma stat_records (gates : list string) :
  ∃ types : list string,
    StronglySorted str_lt types ∧
    (∀ t, t ∈ types ↔ t ∈ gates) ∧
    (λ p, stat_line p.1 p.2) <$> runs (sort gates)
    = (λ t, stat_line t (occurrences t gates)) <$> types.
Proof.
  exists (runs (sort gates)).*1. split; [|split].
  - apply runs_keys_sorted, sort_sorted.
  - intros t. by rewrite runs_keys_elem, sort_elem.
  - rewrite (runs_counts (sort gates)) at 1 by apply sort_sorted.
    rewrite <- list_fmap_compose.
    apply list_fmap_ext. intros i t _. simpl.
    by rewrite sort_occurrences.
Qed.

(** *** Strings in an array *)

Lemma np_str_nonempty c s : last_char (String c s) ≠ Some nul →
  np_str (String c s) ≠ "".
Proof.
  revert c. induction s as [|c' s IH]; intros c Hc.
  - cbn [np_str]. destruct (Ascii.eqb_spec c nul) as [->|]; [|done].
    by destruct Hc.
  - cbn [np_str]. specialize (IH c' Hc). cbn [np_str] in IH.
    by destruct (match np_str s with "" => _ | _ => _ end).
Qed.

Lemma np_str_id s : last_char s ≠ Some nul → np_str s = s.
Proof.
  induction s as [|c s IH]; [done|]. intros Hc. destruct s as [|c' s].
  - cbn [np_str]. destruct (Ascii.eqb_spec c nul) as [->|]; [|done].
    by destruct Hc.
  - specialize (IH Hc). pose proof (np_str_nonempty c' s Hc) as Hne.
    change (np_str (String c (String c' s)))
      with (match np_str (String c' s) with
            | "" => if Ascii.eqb c nul then "" else String c ""
            | t => String c t
            end).
    rewrite IH. done.
Qed.

Lemma np_str_last s : last_char (np_str s) ≠ Some nul.
Proof.
  induction s as [|c s IH]; [done|]. cbn [np_str].
  destruct (np_str s) as [|c' t] eqn:E.
  - destruct (Ascii.eqb_spec c nul) as [->|Hc]; [done|].
    cbn [last_char]. by intros [= ->].
  - done.
Qed.

Lemma np_str_nuls s : ∃ k, s = np_str s +:+ nuls k.
Proof.
  induction s as [|c s [k IH]]; [by exists 0|]. cbn [np_str].
  destruct (np_str s) as [|c' t] eqn:E.
  - destruct (Ascii.eqb_spec c nul) as [->|Hc].
    + exists (S k). change ("" +:+ nuls k) with (nuls k) in IH.
      by rewrite IH at 1.
    + exists k. rewrite string_app_cons. by rewrite IH at 1.
  - exists k. rewrite string_app_cons. by rewrite IH at 1.
Qed.

Lemma np_array_id gates :
  Forall (λ t, last_char t ≠ Some nul) gates → np_array gates = gates.
Proof.
  unfold np_array. induction 1 as [|t gates Ht _ IH]; [done|].
  cbn [fmap list_fmap]. f_equal; [by apply np_str_id|done].
Qed.

(** C3, as worded, fails: of two nodes whose types differ by a trailing NUL
    character one record is emitted, that counts both. *)
Lemma print_graph_stat_merges_nul :
  gate_types nul_heap nul_graph = [String "A" (String nul ""); "A"] ∧
  log (print_graph_stat env_example nul_graph nul_world).2
  = ["A: 2"; header env_example] ∧
  ¬ stat_claim env_example nul_graph nul_world.
Proof.
  split; [reflexivity|]. split; [reflexivity|].
  intros (types & _ & Hmem & Hrun).
  assert (log (print_graph_stat env_example nul_graph nul_world).2
          = ["A: 2"; header env_example]) as Hlog by reflexivity.
  rewrite Hrun in Hlog. cbn [snd log nul_world] in Hlog.
  apply (f_equal List.length) in Hlog.
  rewrite !length_app, length_fmap in Hlog. simpl in Hlog.
  pose proof (proj2 (Hmem (String "A" (String nul "")))) as H1.
  pose proof (proj2 (Hmem "A")) as H2.
  change (gate_types (heap nul_world) nul_graph)
    with [String "A" (String nul ""); "A"] in H1, H2.
  destruct types as [|t [|t' types]]; simpl in Hlog; try lia.
  assert (String "A" (String nul "") = t) as <-.
  { apply list_elem_of_singleton, H1. by left. }
  assert ("A" = String "A" (String nul "")) as [=].
  apply list_elem_of_singleton, H2. right. by left.
Qed.

(** C3 (amended): [print_graph_stat] emits one record ["<type>: <count>"]
    per distinct type among the record-carrying nodes, where a type is
    taken as numpy holds it, without its trailing NUL characters: the count
    is the number of such nodes of that type, the types are in strictly
    ascending lexicographic order, and the rule follows; nothing else in
    the world changes.  For types that do not end in a NUL character this
    is the claim as worded.  On the four example nodes the records are
    AND2: 2, DFF: 1, OR2: 1. *)
Theorem print_graph_stat_spec (env : environment) (G : DiGraph) (w : world) :
  let gates := np_str <$> gate_types (heap w) G in
  (∃ types : list string,
     StronglySorted str_lt types ∧
     (∀ t, t ∈ types ↔ t ∈ gates) ∧
     print_graph_stat env G w
     = (Ok tt,
        World (heap w)
              (log w ++
                 ((λ t, stat_line t (occurrences t gates)) <$> types) ++
                 [header env])
              (stderr w) (cwd w))) ∧
  (∀ t, last_char (np_str t) ≠ Some nul ∧ ∃ k, t = np_str t +:+ nuls k) ∧
  (Forall (λ t, last_char t ≠ Some nul) (gate_types (heap w) G) →
   stat_claim env G w) ∧
  gate_types stat_heap stat_graph = ["AND2"; "AND2"; "DFF"; "OR2"] ∧
  log (print_graph_stat env stat_graph stat_world).2
  = ["AND2: 2"; "DFF: 1"; "OR2: 1"; header env].
Proof.
  intros gates. split; [|split; [|split; [|split; [reflexivity|]]]].
  - subst gates.
    destruct (stat_records (np_str <$> gate_types (heap w) G))
      as (types & Hs & Hmem & Hrec).
    exists types. split; [done|]. split; [done|].
    rewrite print_graph_stat_run. unfold np_array. by rewrite Hrec.
  - intros t. split; [apply np_str_last|apply np_str_nuls].
  - intros Hall. unfold stat_claim. cbv zeta.
    destruct (stat_records (gate_types (heap w) G))
      as (types & Hs & Hmem & Hrec).
    exists types. split; [done|]. split; [done|].
    by rewrite print_graph_stat_run, np_array_id, Hrec.
  - by rewrite print_graph_stat_run.
Qed.

(** ** Nodes without a record *)

Lemma values_filter {V} (P : V → bool) (d : pydict V) :
  values (List.filter (λ kv, P kv.2) d) = List.filter P (values d).
Proof.
  induction d as [|[k v] d IH]; simpl; [done|].
  destruct (P v); simpl; by rewrite IH.
Qed.

Lemma omap_filter_defined {A B} (f : A → option B) (P : A → bool)
    (l : list A) :
  (∀ x, P x = false → f x = None) →
  omap f (List.filter P l) = omap f l.
Proof.
  intros Hf. induction l as [|x l IH]; [done|].
  cbn [List.filter]. destruct (P x) eqn:HP.
  - cbn [omap list_omap]. by rewrite IH.
  - cbn [omap list_omap]. by rewrite (Hf x HP).
Qed.

Lemma gate_types_without_recordless h G :
  gate_types h (without_recordless G) = gate_types h G.
Proof.
  unfold gate_types, nodes_values, without_recordless; cbn [_node].
  rewrite values_filter. apply omap_filter_defined.
  intros d. unfold carries_record, gate_of. by destruct (attr_node d).
Qed.

Lemma is_register_carries env h d :
  is_register env h d = true → carries_record d = true.
Proof. unfold is_register, carries_record. by destruct (attr_node d). Qed.

Lemma filter_filter_implied {A} (P Q : A → bool) (l : list A) :
  (∀ x, P x = true → Q x = true) →
  List.filter P (List.filter Q l) = List.filter P l.
Proof.
  intros HPQ. induction l as [|x l IH]; simpl; [done|].
  destruct (Q x) eqn:HQ; simpl; rewrite IH; [done|].
  destruct (P x) eqn:HP; [|done]. apply HPQ in HP. congruence.
Qed.

(** C10: on any graph, also one with nodes that lack the record attribute,
    [print_graph_stat] and [get_registers] return without raising, and they
    behave as on the graph from which the record-less nodes are removed. *)
Theorem recordless_nodes_skipped (env : environment) (G : DiGraph)
    (w : world) :
  (∃ w', print_graph_stat env G w = (Ok tt, w')) ∧
  print_graph_stat env G w = print_graph_stat env (without_recordless G) w ∧
  (∃ rs, get_registers env G w = (Ok rs, w) ∧
         Forall (λ d, carries_record d = true) rs) ∧
  get_registers env G w = get_registers env (without_recordless G) w.
Proof.
  split; [|split; [|split]].
  - rewrite print_graph_stat_run. by eexists.
  - by rewrite !print_graph_stat_run, gate_types_without_recordless.
  - rewrite get_registers_run. eexists; split; [done|].
    apply Forall_forall. intros d Hd.
    apply elem_of_filter_bool in Hd as [_ Hd].
    by eapply is_register_carries.
  - rewrite !get_registers_run. unfold nodes_values, without_recordless.
    cbn [_node]. rewrite values_filter, filter_filter_implied; [done|].
    apply is_register_carries.
Qed.

(** ** Dictionaries *)

Section pydict_facts.
Context {V : Type}.
Implicit Types (d pre post : pydict V) (k : string) (v : V).

Lemma dict_get_None d k : dict_get d k = None ↔ k ∉ keys d.
Proof.
  induction d as [|[k' v'] d IH]; simpl.
  - split; [intros _; apply not_elem_of_nil|done].
  - rewrite not_elem_of_cons, <- IH.
    destruct (String.eqb_spec k k') as [->|]; [|tauto].
    split; [done|]. by intros [? _].
Qed.

Lemma dict_contains_true d k : dict_contains d k = true ↔ k ∈ keys d.
Proof.
  unfold dict_contains. pose proof (dict_get_None d k) as H.
  destruct (dict_get d k).
  - split; [intros _|done].
    destruct (decide (k ∈ keys d)) as [|Hn]; [done|].
    by apply H in Hn.
  - split; [done|]. intros Hin. by destruct (proj1 H eq_refl).
Qed.

Lemma dict_contains_false d k : dict_contains d k = false ↔ k ∉ keys d.
Proof.
  rewrite <- dict_contains_true. by destruct (dict_contains d k).
Qed.

Lemma dict_get_middle pre post k v :
  k ∉ keys pre → dict_get (pre ++ (k, v) :: post) k = Some v.
Proof.
  induction pre as [|[k' v'] pre IH]; simpl; intros Hn.
  - by rewrite String.eqb_refl.
  - apply not_elem_of_cons in Hn as [Hne Hn].
    destruct (String.eqb_spec k k'); [done|]. by apply IH.
Qed.

Lemma dict_set_fresh d k v : k ∉ keys d → dict_set d k v = d ++ [(k, v)].
Proof.
  induction d as [|[k' v'] d IH]; simpl; intros Hn; [done|].
  apply not_elem_of_cons in Hn as [Hne Hn].
  destruct (String.eqb_spec k k'); [done|]. by rewrite IH.
Qed.

Lemma dict_set_middle pre post k v0 v :
  k ∉ keys pre →
  dict_set (pre ++ (k, v0) :: post) k v = pre ++ (k, v) :: post.
Proof.
  induction pre as [|[k' v'] pre IH]; simpl; intros Hn.
  - by rewrite String.eqb_refl.
  - apply not_elem_of_cons in Hn as [Hne Hn].
    destruct (String.eqb_spec k k'); [done|]. by rewrite IH.
Qed.

Lemma dict_set_keys_present d k v : k ∈ keys d → keys (dict_set d k v) = keys d.
Proof.
  induction d as [|[k' v'] d IH]; simpl; intros Hin.
  - by apply elem_of_nil in Hin.
  - destruct (String.eqb_spec k k'); [done|]. simpl. f_equal. apply IH.
    apply elem_of_cons in Hin as [?|?]; done.
Qed.

Lemma dict_set_keys_fresh d k v :
  k ∉ keys d → keys (dict_set d k v) = keys d ++ [k].
Proof.
  intros Hn. rewrite dict_set_fresh by done. unfold keys.
  by rewrite fmap_app.
Qed.

Lemma dict_set_NoDup d k v : NoDup (keys d) → NoDup (keys (dict_set d k v)).
Proof.
  intros Hnd. destruct (decide (k ∈ keys d)) as [Hin|Hn].
  - by rewrite dict_set_keys_present.
  - rewrite dict_set_keys_fresh by done. apply NoDup_app.
    split; [done|]. split; [|apply NoDup_singleton].
    intros x Hx ->%list_elem_of_singleton. done.
Qed.

(** Every entry of [dict_set d k v] is the new one, or an old one under
    another key. *)
Lemma dict_set_elem d k v k' v' :
  NoDup (keys d) →
  (k', v') ∈ dict_set d k v → (k' = k ∧ v' = v) ∨ (k' ≠ k ∧ (k', v') ∈ d).
Proof.
  induction d as [|[k0 v0] d IH]; simpl; intros Hnd.
  - intros ?%list_elem_of_singleton. left. by simplify_eq.
  - apply NoDup_cons in Hnd as [Hk0 Hnd].
    destruct (String.eqb_spec k k0) as [->|Hne].
    + intros [?|Hin]%elem_of_cons; [left; by simplify_eq|].
      right. split; [|by right]. intros ->. apply Hk0.
      by apply (list_elem_of_fmap_2 fst) in Hin.
    + intros [?|Hin]%elem_of_cons.
      * simplify_eq. right. split; [done|by left].
      * destruct (IH Hnd Hin) as [?|[? ?]]; [by left|].
        right. split; [done|by right].
Qed.

Lemma dict_update_elem d pairs k v :
  NoDup (keys d) →
  (k, v) ∈ dict_update d pairs →
  (k, v) ∈ pairs ∨ ((k, v) ∈ d ∧ k ∉ keys pairs).
Proof.
  revert d. induction pairs as [|[k0 v0] pairs IH]; intros d Hnd Hin.
  - right. split; [done|apply not_elem_of_nil].
  - unfold dict_update in Hin. simpl in Hin.
    change (fold_left _ pairs ?x) with (dict_update x pairs) in Hin.
    apply IH in Hin; [|by apply dict_set_NoDup].
    destruct Hin as [Hin|[Hin Hk]]; [left; by right|].
    apply dict_set_elem in Hin; [|done].
    destruct Hin as [[-> ->]|[Hne Hin]].
    + left. by left.
    + right. split; [done|]. simpl. by apply not_elem_of_cons.
Qed.

Lemma dict_update_keys d pairs :
  keys pairs ⊆ keys d → keys (dict_update d pairs) = keys d.
Proof.
  revert d. induction pairs as [|[k0 v0] pairs IH]; intros d Hsub; [done|].
  unfold dict_update. simpl.
  change (fold_left _ pairs ?x) with (dict_update x pairs).
  assert (k0 ∈ keys d) as Hk0 by (apply Hsub; by left).
  rewrite IH; rewrite dict_set_keys_present by done; [done|].
  intros x Hx. apply Hsub. by right.
Qed.

(** Updating with pairs over the same keys, in the same order, leaves
    exactly the pairs. *)
Lemma dict_update_same_keys pre d pairs :
  keys pairs = keys d → NoDup (keys pre ++ keys d) →
  dict_update (pre ++ d) pairs = pre ++ pairs.
Proof.
  revert pre d. induction pairs as [|[k v] pairs IH]; intros pre d Hk Hnd.
  - destruct d; [done|discriminate].
  - destruct d as [|[k' v0] d]; [discriminate|]. simpl in Hk.
    injection Hk as <- Hk. unfold dict_update. simpl.
    rewrite dict_set_middle.
    2:{ apply NoDup_app in Hnd as (_ & Hdisj & _).
        intros Hin. apply (Hdisj _ Hin). by left. }
    change (fold_left _ pairs ?x) with (dict_update x pairs).
    replace (pre ++ (k, v) :: d) with ((pre ++ [(k, v)]) ++ d)
      by by rewrite <- List.app_assoc.
    rewrite IH; [by rewrite <- List.app_assoc|done|].
    unfold keys in *. rewrite fmap_app. simpl in *.
    by rewrite <- List.app_assoc.
Qed.

Lemma dict_update_all d pairs :
  keys pairs = keys d → NoDup (keys d) → dict_update d pairs = pairs.
Proof. intros Hk Hnd. by apply (dict_update_same_keys [] d pairs). Qed.
End pydict_facts.

(** ** relabel_nodes *)

Lemma add_nodes_from_fresh G ks :
  keys (_succ G) = keys (_node G) → NoDup (keys (_node G) ++ ks) →
  add_nodes_from G ks
  = Graph (_node G ++ ((λ k, (k, no_attrs)) <$> ks))
          (_succ G ++ ((λ k, (k, [])) <$> ks)) (graph G).
Proof.
  revert G. induction ks as [|k ks IH]; intros G Hk Hnd.
  - simpl. rewrite !app_nil_r. by destruct G.
  - unfold add_nodes_from. simpl.
    change (fold_left add_node ks ?x) with (add_nodes_from x ks).
    assert (k ∉ keys (_node G)) as Hfresh.
    { apply NoDup_app in Hnd as (_ & Hdisj & _).
      intros Hin. apply (Hdisj _ Hin). by left. }
    unfold add_node.
    rewrite (proj2 (dict_contains_false _ _) Hfresh).
    rewrite !dict_set_fresh by (by rewrite ?Hk).
    rewrite IH; simpl.
    + by rewrite <- !List.app_assoc.
    + unfold keys in *. by rewrite !fmap_app, Hk.
    + unfold keys in *. rewrite fmap_app. simpl.
      by rewrite <- List.app_assoc.
Qed.

Lemma NoDup_fmap_inj_on {A B} (f : A → B) (l : list A) (x y : A) :
  NoDup (f <$> l) → x ∈ l → y ∈ l → f x = f y → x = y.
Proof.
  induction l as [|z l IH]; simpl; intros Hnd Hx Hy Hf.
  - by apply elem_of_nil in Hx.
  - apply NoDup_cons in Hnd as [Hz Hnd].
    apply elem_of_cons in Hx as [->|Hx]; apply elem_of_cons in Hy as [->|Hy];
      try done.
    + destruct Hz. rewrite Hf. by apply list_elem_of_fmap_2.
    + destruct Hz. rewrite <- Hf. by apply list_elem_of_fmap_2.
    + by apply IH.
Qed.

Lemma NoDup_fmap_sub {A B} (f : A → B) (l ks : list A) :
  NoDup (f <$> ks) → NoDup l → l ⊆ ks → NoDup (f <$> l).
Proof.
  intros Hks Hl Hsub. apply NoDup_fmap_2_strong; [|done].
  intros x y Hx Hy. apply (NoDup_fmap_inj_on f ks); auto.
Qed.

Lemma edges_cons N u nbrs S g :
  edges (Graph N ((u, nbrs) :: S) g)
  = ((λ vd, (u, vd.1, vd.2)) <$> nbrs) ++ edges (Graph N S g).
Proof.
  unfold edges. cbn [_succ mbind list_bind]. f_equal.
  induction nbrs as [|[v dd] nbrs IH]; [done|].
  cbn [mbind list_bind fmap list_fmap fst snd]. by rewrite IH.
Qed.

Lemma add_edge_existing N pre post g u acc v dd :
  u ∉ keys pre → v ∉ keys acc → v ∈ keys (pre ++ (u, acc) :: post) →
  add_edge (Graph N (pre ++ (u, acc) :: post) g) (u, v, dd)
  = Graph N (pre ++ (u, acc ++ [(v, dd)]) :: post) g.
Proof.
  intros Hu Hv Hin. unfold add_edge, ensure_node. cbn [_succ _node graph].
  assert (u ∈ keys (pre ++ (u, acc) :: post)) as Hin'.
  { unfold keys. rewrite fmap_app, elem_of_app. right. by left. }
  rewrite (proj2 (dict_contains_true _ _) Hin'). cbn [_succ _node graph].
  rewrite (proj2 (dict_contains_true _ _) Hin). cbn [_succ _node graph].
  rewrite dict_get_middle by done. cbn [from_option id].
  rewrite (proj2 (dict_get_None _ _) Hv). cbn [from_option id].
  rewrite (right_id_L ∅ (∪)), (dict_set_fresh acc v dd) by done.
  by rewrite dict_set_middle.
Qed.

Lemma add_edges_inner N pre post g u (nbrs acc : pydict eattrs) :
  u ∉ keys pre → NoDup (keys acc ++ keys nbrs) →
  keys nbrs ⊆ keys (pre ++ (u, acc) :: post) →
  add_edges_from (Graph N (pre ++ (u, acc) :: post) g)
                 ((λ vd, (u, vd.1, vd.2)) <$> nbrs)
  = Graph N (pre ++ (u, acc ++ nbrs) :: post) g.
Proof.
  revert acc. induction nbrs as [|[v dd] nbrs IH]; intros acc Hu Hnd Hsub.
  - simpl. by rewrite app_nil_r.
  - unfold add_edges_from. cbn [fmap list_fmap fold_left fst snd].
    change (fold_left add_edge ?l ?x) with (add_edges_from x l).
    rewrite add_edge_existing; [|done|..].
    + rewrite IH; [by rewrite <- List.app_assoc|done|..].
      * unfold keys in *. rewrite fmap_app. simpl in *.
        by rewrite <- List.app_assoc.
      * intros x Hx. assert (x ∈ keys (pre ++ (u, acc) :: post)) as Hx'
          by (apply Hsub; by right).
        unfold keys in *. by rewrite fmap_app in Hx' |- *.
    + apply NoDup_app in Hnd as (_ & Hdisj & _).
      intros Hin. apply (Hdisj _ Hin). by left.
    + apply Hsub. by left.
Qed.

(** Rebuilding a successor table from its keys and its edges gives the
    table back. *)
Lemma add_edges_outer N g (todo done_ : pydict (pydict eattrs)) :
  NoDup (keys (done_ ++ todo)) →
  Forall (λ un, NoDup (keys un.2) ∧ keys un.2 ⊆ keys (done_ ++ todo)) todo →
  add_edges_from
    (Graph N (done_ ++ ((λ un : string * pydict eattrs, (un.1, [])) <$> todo))
           g)
                 (edges (Graph N todo g))
  = Graph N (done_ ++ todo) g.
Proof.
  revert done_. induction todo as [|[u nbrs] todo IH]; intros done_ Hnd Hwf.
  - simpl. by rewrite !app_nil_r.
  - apply Forall_cons in Hwf as [[Hnbrs Hsub] Hwf].
    rewrite edges_cons. unfold add_edges_from. rewrite fold_left_app.
    do 2 change (fold_left add_edge ?l ?x) with (add_edges_from x l).
    cbn [fmap list_fmap fst].
    assert (u ∉ keys done_) as Hu.
    { unfold keys in Hnd. rewrite fmap_app in Hnd.
      apply NoDup_app in Hnd as (_ & Hdisj & _).
      intros Hin. apply (Hdisj _ Hin). by left. }
    rewrite (add_edges_inner N done_ _ g u nbrs []); [|done|done|].
    + replace (done_ ++ (u, [] ++ nbrs) :: ((λ un, (un.1, [])) <$> todo))
        with ((done_ ++ [(u, nbrs)]) ++ ((λ un, (un.1, [])) <$> todo))
        by by rewrite <- List.app_assoc.
      rewrite IH; [by rewrite <- List.app_assoc|..];
        by rewrite <- List.app_assoc.
    + intros x Hx. apply Hsub in Hx. unfold keys in *.
      rewrite fmap_app in Hx |- *. simpl in *.
      by rewrite <- list_fmap_compose.
Qed.

Lemma keys_relabel_succ f (S : pydict (pydict eattrs)) :
  keys (relabel_succ f S) = f <$> keys S.
Proof.
  unfold keys, relabel_succ. rewrite <- !list_fmap_compose.
  by apply list_fmap_ext.
Qed.

Lemma keys_relabel_nbrs f (nbrs : pydict eattrs) :
  keys (relabel_nbrs f nbrs) = f <$> keys nbrs.
Proof.
  unfold keys, relabel_nbrs. rewrite <- !list_fmap_compose.
  by apply list_fmap_ext.
Qed.

Lemma edges_image f G :
  (λ e, (f e.1.1, f e.1.2, e.2)) <$> edges G = edges (image f G).
Proof.
  destruct G as [N S g]. unfold image; cbn [_node _succ graph].
  generalize ((λ nd : string * attrs, (f nd.1, nd.2)) <$> N) as N'.
  intros N'. induction S as [|[u nbrs] S IH]; [done|].
  rewrite edges_cons. cbn [relabel_succ fmap list_fmap fst snd].
  fold (relabel_succ f S). rewrite edges_cons, fmap_app, IH. f_equal.
  unfold relabel_nbrs. rewrite <- !list_fmap_compose.
  by apply list_fmap_ext.
Qed.

(** Under a relabelling that keeps the keys apart, the new graph is the
    image of the old one. *)
Lemma relabel_nodes_image G mapping :
  wf_graph G → NoDup (mapping_get mapping <$> keys (_node G)) →
  relabel_nodes G mapping = image (mapping_get mapping) G.
Proof.
  intros (Hnd & Hkeys & Hsucc) Hinj. unfold relabel_nodes.
  set (f := mapping_get mapping) in *.
  rewrite add_nodes_from_fresh by done. cbn [empty_graph _node _succ graph].
  rewrite !app_nil_l. unfold node_update. cbn [_node _succ graph].
  unfold nodes_data.
  rewrite dict_update_all.
  2:{ unfold keys. rewrite <- !list_fmap_compose. by apply list_fmap_ext. }
  2:{ unfold keys at 1. rewrite <- list_fmap_compose.
      by rewrite list_fmap_id. }
  rewrite (edges_image f G). unfold image, edges. cbn [_node _succ graph].
  replace ((λ k : string, (k, @nil (string * eattrs))) <$>
             (f <$> keys (_node G)))
    with ((λ un : string * pydict eattrs, (un.1, @nil (string * eattrs)))
            <$> relabel_succ f (_succ G)).
  2:{ rewrite <- Hkeys. unfold keys, relabel_succ.
      rewrite <- !list_fmap_compose. by apply list_fmap_ext. }
  pose proof (add_edges_outer ((λ nd, (f nd.1, nd.2)) <$> _node G) ∅
                (relabel_succ f (_succ G)) []) as Hout.
  rewrite !app_nil_l in Hout.
  unfold edges in Hout |- *. cbn [_succ] in Hout |- *.
  rewrite Hout; [cbn [_node _succ graph]; by rewrite (right_id_L ∅ (∪))|..].
  - by rewrite keys_relabel_succ, Hkeys.
  - unfold relabel_succ. apply Forall_fmap.
    eapply Forall_impl; [exact Hsucc|]. intros [u nbrs] [Hn Hsub].
    unfold compose. cbn [snd fst] in *. fold (relabel_succ f (_succ G)).
    rewrite keys_relabel_nbrs, keys_relabel_succ, Hkeys. split.
    + by apply (NoDup_fmap_sub f _ (keys (_node G))).
    + intros x (y & -> & Hy)%list_elem_of_fmap.
      apply list_elem_of_fmap_2. by apply Hsub.
Qed.

(** *** Relabelling that may merge nodes *)

Lemma add_nodes_from_props G ks :
  keys (_succ G) = keys (_node G) → NoDup (keys (_node G)) →
  keys (_succ (add_nodes_from G ks)) = keys (_node (add_nodes_from G ks)) ∧
  NoDup (keys (_node (add_nodes_from G ks))) ∧
  (∀ k, k ∈ keys (_node (add_nodes_from G ks))
        ↔ k ∈ keys (_node G) ∨ k ∈ ks).
Proof.
  revert G. induction ks as [|k ks IH]; intros G Hk Hnd.
  - simpl. split; [done|]. split; [done|]. intros k.
    rewrite elem_of_nil. tauto.
  - unfold add_nodes_from. simpl.
    change (fold_left add_node ks ?x) with (add_nodes_from x ks).
    assert (keys (_succ (add_node G k)) = keys (_node (add_node G k)) ∧
            NoDup (keys (_node (add_node G k))) ∧
            ∀ x, x ∈ keys (_node (add_node G k))
                 ↔ x ∈ keys (_node G) ∨ x = k) as (Hk' & Hnd' & Hel).
    { unfold add_node. destruct (dict_contains (_node G) k) eqn:E.
      - split; [done|]. split; [done|]. intros x.
        apply dict_contains_true in E. split; [tauto|].
        by intros [?| ->].
      - apply dict_contains_false in E. cbn [_node _succ].
        rewrite !dict_set_keys_fresh by (by rewrite ?Hk).
        split; [by rewrite Hk|]. split.
        + apply NoDup_app. split; [done|]. split; [|apply NoDup_singleton].
          by intros x Hx ->%list_elem_of_singleton.
        + intros x. by rewrite elem_of_app, list_elem_of_singleton. }
    destruct (IH _ Hk' Hnd') as (? & ? & Hel'). split; [done|].
    split; [done|]. intros x. rewrite Hel', Hel, elem_of_cons. tauto.
Qed.

Lemma add_edge_nodes H u v dd :
  u ∈ keys (_succ H) → v ∈ keys (_succ H) →
  _node (add_edge H (u, v, dd)) = _node H ∧
  keys (_succ (add_edge H (u, v, dd))) = keys (_succ H).
Proof.
  intros Hu Hv. unfold add_edge, ensure_node.
  rewrite (proj2 (dict_contains_true _ _) Hu).
  rewrite (proj2 (dict_contains_true _ _) Hv). cbn [_node _succ].
  split; [done|]. by apply dict_set_keys_present.
Qed.

Lemma add_edges_from_nodes H es :
  Forall (λ e, e.1.1 ∈ keys (_succ H) ∧ e.1.2 ∈ keys (_succ H)) es →
  _node (add_edges_from H es) = _node H.
Proof.
  revert H. induction es as [|[[u v] dd] es IH]; intros H Hes; [done|].
  apply Forall_cons in Hes as [[Hu Hv] Hes]. cbn [fst snd] in *.
  unfold add_edges_from. cbn [fold_left].
  change (fold_left add_edge es ?x) with (add_edges_from x es).
  destruct (add_edge_nodes H u v dd Hu Hv) as [Hn Hs].
  rewrite IH, Hn; [done|]. by rewrite Hs.
Qed.

Lemma edges_ends G e :
  wf_graph G → e ∈ edges G →
  e.1.1 ∈ keys (_node G) ∧ e.1.2 ∈ keys (_node G).
Proof.
  intros (_ & Hkeys & Hsucc) He. unfold edges in He.
  apply list_elem_of_bind in He as ([u nbrs] & He & Hun).
  apply list_elem_of_bind in He as ([v dd] & He & Hvd).
  apply list_elem_of_singleton in He as ->. cbn [fst snd].
  rewrite Forall_forall in Hsucc. destruct (Hsucc _ Hun) as [_ Hsub].
  split.
  - rewrite <- Hkeys. by apply (list_elem_of_fmap_2 fst) in Hun.
  - apply Hsub. by apply (list_elem_of_fmap_2 fst) in Hvd.
Qed.

(** Every node of the relabelled graph carries the attribute dictionary of
    a node of the old graph whose key is mapped to its key. *)
Lemma relabel_nodes_node_elem G mapping k' d :
  wf_graph G → (k', d) ∈ _node (relabel_nodes G mapping) →
  ∃ k, (k, d) ∈ _node G ∧ k' = mapping_get mapping k.
Proof.
  intros Hwf Hin. unfold relabel_nodes in Hin. cbn [_node] in Hin.
  set (f := mapping_get mapping) in *.
  destruct (add_nodes_from_props empty_graph (f <$> keys (_node G)))
    as (Hk1 & Hnd1 & Hel1); [done|apply NoDup_nil_2|].
  set (H1 := add_nodes_from empty_graph _) in *.
  set (pairs := (λ nd, (f nd.1, nd.2)) <$> nodes_data G) in *.
  assert (keys pairs = f <$> keys (_node G)) as Hkp.
  { subst pairs. unfold keys, nodes_data. rewrite <- !list_fmap_compose.
    by apply list_fmap_ext. }
  rewrite add_edges_from_nodes in Hin.
  - unfold node_update in Hin. cbn [_node] in Hin.
    apply dict_update_elem in Hin; [|done].
    destruct Hin as [Hin|[Hin Hnk]].
    + subst pairs. apply list_elem_of_fmap in Hin as ([k d'] & [= -> ->] & Hin).
      by exists k.
    + destruct Hnk. rewrite Hkp. apply (list_elem_of_fmap_2 fst) in Hin.
      apply Hel1 in Hin as [Hin|Hin]; [|done].
      by apply elem_of_nil in Hin.
  - unfold node_update. cbn [_succ]. rewrite Hk1.
    apply Forall_fmap, Forall_forall. intros e He.
    destruct (edges_ends G e Hwf He) as [Hu Hv]. unfold compose. cbn [fst snd].
    split; apply Hel1; right; by apply list_elem_of_fmap_2.
Qed.

(** ** The renaming loop *)

Lemma same_but_name_refl n : same_but_name n n.
Proof. by repeat split. Qed.

Lemma same_but_name_trans n1 n2 n3 :
  same_but_name n1 n2 → same_but_name n2 n3 → same_but_name n1 n3.
Proof.
  unfold same_but_name. intros (?&?&?&?&?&?) (?&?&?&?&?&?).
  repeat split; congruence.
Qed.

Lemma rename_body_run suffix ign m nd w :
  carries_record nd.2 = true →
  rename_body suffix ign m nd w
  = (Ok (body_mapping suffix ign (heap w) m nd),
     World (body_heap suffix ign (heap w) nd) (log w) (stderr w) (cwd w)).
Proof.
  destruct nd as [k d]. unfold carries_record, rename_body, body_mapping,
    body_heap, renames, append_to_name, getitem_node. cbn [fst snd].
  destruct (attr_node d) as [r|]; [intros _|done].
  unfold mbind, M_bind, mret, M_ret, deref, store.
  destruct ign; cbn [negb orb]; [|done].
  destruct (negb _); [done|]. by rewrite world_eta.
Qed.

Lemma rename_body_raise suffix ign m nd w :
  carries_record nd.2 = false →
  rename_body suffix ign m nd w = (Raise (KeyError "node"), w).
Proof.
  destruct nd as [k d]. unfold carries_record, rename_body, append_to_name,
    getitem_node. cbn [fst snd].
  destruct (attr_node d) as [r|]; [done|intros _]. by destruct ign.
Qed.

Lemma body_heap_frame suffix ign h nd r :
  same_but_name (h r) (body_heap suffix ign h nd r).
Proof.
  unfold body_heap. destruct (attr_node nd.2) as [r'|];
    [|apply same_but_name_refl].
  destruct (renames ign h nd.2); [|apply same_but_name_refl].
  destruct (decide (r' = r)) as [->|Hne].
  - rewrite fn_lookup_insert. by repeat split.
  - rewrite fn_lookup_insert_ne by done. apply same_but_name_refl.
Qed.

Lemma renames_body_heap suffix ign h nd d :
  renames ign (body_heap suffix ign h nd) d = renames ign h d.
Proof.
  unfold renames. destruct (attr_node d) as [r|]; [|done].
  by destruct (body_heap_frame suffix ign h nd r) as (_ & -> & _).
Qed.

Lemma loop_heap_frame suffix ign items h r :
  same_but_name (h r) (loop_heap suffix ign items h r).
Proof.
  revert h. induction items as [|nd items IH]; intros h.
  - apply same_but_name_refl.
  - eapply same_but_name_trans; [apply (body_heap_frame suffix ign h nd)|].
    apply IH.
Qed.

Lemma rename_loop_run suffix ign items m w :
  all_records items →
  for_fold (rename_body suffix ign) m items w
  = (Ok (loop_mapping suffix ign items (heap w) m),
     World (loop_heap suffix ign items (heap w)) (log w) (stderr w) (cwd w)).
Proof.
  revert m w. induction items as [|nd items IH]; intros m w Hall.
  - simpl. by rewrite world_eta.
  - apply Forall_cons in Hall as [Hnd Hall]. cbn [for_fold].
    rewrite run_bind, rename_body_run by done. by rewrite IH.
Qed.

(** Whatever the graph, the loop leaves the output channels alone, touches
    no field of a record but the name, and completes only if every node
    carries a record. *)
Lemma rename_loop_frame suffix ign items m w :
  let run := for_fold (rename_body suffix ign) m items w in
  (∀ r, same_but_name (heap w r) (heap run.2 r)) ∧
  log run.2 = log w ∧ stderr run.2 = stderr w ∧ cwd run.2 = cwd w ∧
  (∀ m', run.1 = Ok m' → all_records items).
Proof.
  revert m w. induction items as [|nd items IH]; intros m w; cbv zeta.
  - simpl. repeat split; try done. intros _ _. constructor.
  - cbn [for_fold]. rewrite run_bind.
    destruct (carries_record nd.2) eqn:Hc.
    + rewrite rename_body_run by done.
      set (w1 := World _ _ _ _).
      destruct (IH (body_mapping suffix ign (heap w) m nd) w1)
        as (Hh & Hl & He & Hc' & Hok).
      split; [|split; [done|split; [done|split; [done|]]]].
      * intros r. eapply same_but_name_trans; [|apply Hh].
        apply body_heap_frame.
      * intros m' Hm'. constructor; [done|]. by eapply Hok.
    + rewrite rename_body_raise by done. cbn [fst snd].
      repeat split; try done.
Qed.

Lemma loop_mapping_lookup suffix ign items h m k :
  NoDup (keys items) →
  loop_mapping suffix ign items h m !! k
  = match dict_get items k with
    | Some d => if renames ign h d then Some (k +:+ suffix) else m !! k
    | None => m !! k
    end.
Proof.
  revert h m. induction items as [|[k0 d0] items IH]; intros h m Hnd; [done|].
  cbn [keys fmap list_fmap fst] in Hnd. apply NoDup_cons in Hnd as [Hk0 Hnd].
  cbn [loop_mapping dict_get]. rewrite IH by done.
  unfold body_mapping. cbn [fst snd].
  destruct (String.eqb_spec k k0) as [->|Hne].
  - rewrite (proj2 (dict_get_None items k0) Hk0).
    destruct (renames ign h d0); [|done]. by rewrite lookup_insert_eq.
  - assert ((if renames ign h d0 then <[k0:=k0 +:+ suffix]> m else m)
            !! k = m !! k) as Hm.
    { destruct (renames ign h d0); [|done]. by rewrite lookup_insert_ne. }
    destruct (dict_get items k) as [d|]; [|done].
    rewrite renames_body_heap. by destruct (renames ign h d).
Qed.

Lemma dict_get_elem {V} (d : pydict V) k v :
  NoDup (keys d) → (k, v) ∈ d → dict_get d k = Some v.
Proof.
  induction d as [|[k0 v0] d IH]; intros Hnd Hin.
  - by apply elem_of_nil in Hin.
  - cbn [keys fmap list_fmap fst] in Hnd.
    apply NoDup_cons in Hnd as [Hk0 Hnd]. simpl.
    apply elem_of_cons in Hin as [[= -> ->]|Hin].
    + by rewrite String.eqb_refl.
    + destruct (String.eqb_spec k k0) as [->|]; [|by apply IH].
      destruct Hk0. by apply (list_elem_of_fmap_2 fst) in Hin.
Qed.

(** The relabelling computed by the loop sends each node to its new key. *)
Lemma loop_mapping_get suffix ign items h nd :
  NoDup (keys items) → nd ∈ items →
  mapping_get (loop_mapping suffix ign items h ∅) nd.1
  = new_key suffix ign h nd.
Proof.
  intros Hnd Hin. destruct nd as [k d]. unfold mapping_get, new_key.
  cbn [fst snd].
  rewrite loop_mapping_lookup, (dict_get_elem items k d) by done.
  by destruct (renames ign h d).
Qed.

Lemma loop_heap_cons suffix ign nd items h :
  loop_heap suffix ign (nd :: items) h
  = loop_heap suffix ign items (body_heap suffix ign h nd).
Proof. reflexivity. Qed.

Lemma refs_cons nd items :
  refs (nd :: items) = option_list (attr_node nd.2) ++ refs items.
Proof. unfold refs. simpl. by destruct (attr_node nd.2). Qed.

Lemma loop_heap_other suffix ign items h r :
  r ∉ refs items → loop_heap suffix ign items h r = h r.
Proof.
  revert h. induction items as [|nd items IH]; intros h Hr; [done|].
  rewrite loop_heap_cons. rewrite refs_cons in Hr.
  apply not_elem_of_app in Hr as [Hr0 Hr]. rewrite IH by done.
  unfold body_heap. destruct (attr_node nd.2) as [r0|]; [|done].
  destruct (renames ign h nd.2); [|done].
  rewrite fn_lookup_insert_ne; [done|].
  intros ->. apply Hr0. by left.
Qed.

(** When no record is shared, the record of a renamed node gets the suffix
    once and the record of any other node stays as it is. *)
Lemma loop_heap_record suffix ign items h nd r :
  NoDup (refs items) → nd ∈ items → attr_node nd.2 = Some r →
  loop_heap suffix ign items h r
  = if renames ign h nd.2 then suffixed suffix (h r) else h r.
Proof.
  revert h. induction items as [|nd0 items IH]; intros h Hnd Hin Hr.
  - by apply elem_of_nil in Hin.
  - rewrite loop_heap_cons. rewrite refs_cons in Hnd.
    apply NoDup_app in Hnd as (_ & Hdisj & Hnd).
    apply elem_of_cons in Hin as [->|Hin].
    + rewrite Hr in Hdisj. rewrite loop_heap_other by (apply Hdisj; by left).
      unfold body_heap. rewrite Hr.
      destruct (renames ign h nd0.2); [|done]. by rewrite fn_lookup_insert.
    + assert (r ∈ refs items) as Hrin.
      { unfold refs. apply list_elem_of_omap. by exists nd. }
      rewrite IH, renames_body_heap by done.
      assert (body_heap suffix ign h nd0 r = h r) as ->; [|done].
      unfold body_heap. destruct (attr_node nd0.2) as [r0|]; [|done].
      destruct (renames ign h nd0.2); [|done].
      rewrite fn_lookup_insert_ne; [done|].
      intros ->. apply (Hdisj r); [by left|done].
Qed.

Lemma string_app_inj_r (a b s : string) : a +:+ s = b +:+ s → a = b.
Proof.
  revert b. induction a as [|x a IH]; intros [|y b] H; [done|..].
  - apply (f_equal String.length) in H.
    rewrite !string_app_length in H. simpl in H. lia.
  - apply (f_equal String.length) in H.
    rewrite !string_app_length in H. simpl in H. lia.
  - rewrite !string_app_cons in H. injection H as -> H. f_equal. by apply IH.
Qed.

(** Renaming every node cannot make two keys meet. *)
Lemma new_keys_all_distinct suffix h items :
  all_records items → NoDup (keys items) →
  NoDup (new_key suffix false h <$> items).
Proof.
  intros Hall Hnd.
  assert (new_key suffix false h <$> items
          = (λ k, k +:+ suffix) <$> keys items) as ->.
  { unfold keys. rewrite <- list_fmap_compose.
    apply Forall_fmap_ext_1. eapply Forall_impl; [exact Hall|].
    intros [k d]. unfold new_key, renames, carries_record. cbn [fst snd].
    unfold compose. cbn [fst]. by destruct (attr_node d). }
  apply NoDup_fmap_2_strong; [|done].
  intros x y _ _. apply string_app_inj_r.
Qed.

(** ** rename_nodes *)

Lemma rename_nodes_run G suffix ign w :
  all_records (_node G) →
  rename_nodes G suffix ign w
  = (Ok (relabel_nodes G (loop_mapping suffix ign (_node G) (heap w) ∅)),
     World (loop_heap suffix ign (_node G) (heap w)) (log w) (stderr w)
           (cwd w)).
Proof.
  intros Hall. unfold rename_nodes, nodes_data.
  by rewrite run_bind, rename_loop_run.
Qed.

Lemma rename_nodes_ok G suffix ign w G' :
  (rename_nodes G suffix ign w).1 = Ok G' → all_records (_node G).
Proof.
  unfold rename_nodes, nodes_data. rewrite run_bind.
  pose proof (rename_loop_frame suffix ign (_node G) ∅ w) as (_&_&_&_& Hok).
  destruct (for_fold _ _ _ _) as [[m|e] w']; [|done].
  intros _. by eapply Hok.
Qed.

(** When the new keys are pairwise distinct, the result is the image of the
    graph under the map from old to new keys. *)
Lemma rename_nodes_image G suffix ign w :
  wf_graph G → all_records (_node G) →
  NoDup (new_key suffix ign (heap w) <$> _node G) →
  ∃ f, (∀ nd, nd ∈ _node G → f nd.1 = new_key suffix ign (heap w) nd) ∧
       NoDup (f <$> keys (_node G)) ∧
       rename_nodes G suffix ign w
       = (Ok (image f G),
          World (loop_heap suffix ign (_node G) (heap w)) (log w) (stderr w)
                (cwd w)).
Proof.
  intros Hwf Hall Hnew.
  set (f := mapping_get (loop_mapping suffix ign (_node G) (heap w) ∅)).
  assert (∀ nd, nd ∈ _node G → f nd.1 = new_key suffix ign (heap w) nd) as Hf.
  { intros nd Hnd. apply loop_mapping_get; [apply Hwf|done]. }
  assert (f <$> keys (_node G) = new_key suffix ign (heap w) <$> _node G)
    as Hkeys.
  { unfold keys. rewrite <- list_fmap_compose. apply Forall_fmap_ext_1.
    apply Forall_forall. intros nd Hnd. by apply Hf. }
  exists f. split; [done|]. split; [by rewrite Hkeys|].
  rewrite rename_nodes_run by done. fold f.
  rewrite relabel_nodes_image; [done|done|]. fold f. by rewrite Hkeys.
Qed.

(** *** Selectivity (C1) *)

(** C1, as worded, fails.  With the suffix [_i] and inputs ignored, the
    multiplexer [sel] is renamed to the key of the input [sel_i]: the two
    nodes are merged and the input's attribute dictionary is gone.  And a
    record shared by two nodes gets the suffix twice. *)
Lemma rename_nodes_not_selective :
  (wf_graph sel_graph ∧ all_records (_node sel_graph) ∧
   (rename_nodes sel_graph "_i" true sel_world).1
   = Ok (Graph [("sel_i", Attrs (Some 1) ∅)] [("sel_i", [("sel_i", ∅)])] ∅) ∧
   ¬ rename_selectivity sel_graph "_i" true sel_world) ∧
  (wf_graph shared_graph ∧ all_records (_node shared_graph) ∧
   Node.name (heap (rename_nodes shared_graph "_x" false sel_world).2 1)
   = "sel_x_x" ∧
   ¬ rename_selectivity shared_graph "_x" false sel_world).
Proof.
  split; (split; [by_compute|]); (split; [by_compute|]);
    (split; [reflexivity|]).
  - intros (G' & w' & Hrun & Hsel).
    injection Hrun as <- <-.
    destruct (Hsel "sel_i" (Attrs (Some 0) ∅) 0) as [Hin _];
      [by left|done|].
    vm_compute in Hin. apply list_elem_of_singleton in Hin. discriminate.
  - intros (G' & w' & Hrun & Hsel).
    injection Hrun as <- <-.
    destruct (Hsel "u1" (Attrs (Some 1) ∅) 1) as [_ Hname];
      [by left|done|].
    vm_compute in Hname. discriminate.
Qed.

(** C1 (amended): on a well-formed graph whose nodes each carry a record of
    their own, and where, with inputs ignored, no two new keys coincide,
    [rename_nodes] leaves the input nodes under their key with their name
    and moves every other node to the suffixed key with the suffixed name;
    without [ignore_inputs] this holds of every node and no condition on
    the keys is needed. *)
Theorem rename_nodes_selective (G : DiGraph) (suffix : string)
    (ignore_inputs : bool) (w : world) :
  wf_graph G →
  all_records (_node G) →
  NoDup (refs (_node G)) →
  (ignore_inputs = true →
   NoDup (new_key suffix true (heap w) <$> _node G)) →
  rename_selectivity G suffix ignore_inputs w.
Proof.
  intros Hwf Hall Hrefs Hkeys.
  assert (NoDup (new_key suffix ignore_inputs (heap w) <$> _node G)) as Hnew.
  { destruct ignore_inputs; [by apply Hkeys|].
    apply new_keys_all_distinct; [done|apply Hwf]. }
  destruct (rename_nodes_image G suffix ignore_inputs w Hwf Hall Hnew)
    as (f & Hf & _ & Hrun).
  eexists _, _. split; [exact Hrun|].
  intros key d r Hin Hr. cbn [heap].
  rewrite (loop_heap_record suffix ignore_inputs _ _ (key, d) r) by done.
  assert ((f key, d) ∈ _node (image f G)) as Hin'.
  { unfold image. cbn [_node].
    by apply (list_elem_of_fmap_2 (λ nd, (f nd.1, nd.2)) _ (key, d)). }
  pose proof (Hf (key, d) Hin) as Hfk. cbn [fst] in Hfk.
  rewrite Hfk in Hin'. unfold new_key in Hin'.
  cbn [fst snd] in *. unfold renames in *. rewrite Hr in *.
  destruct ignore_inputs; cbn [negb orb andb] in *.
  - by destruct (String.eqb (Node.type (heap w r)) "input").
  - done.
Qed.

Lemma rename_nodes_selective_witness :
  rename_selectivity sel_graph "_f" true sel_world.
Proof.
  apply rename_nodes_selective; [by_compute|by_compute|by_compute|].
  intros _. by_compute.
Defined.

(** *** Frame (C7) *)

Lemma refs_image f G : refs (_node (image f G)) = refs (_node G).
Proof.
  unfold image, refs. cbn [_node].
  induction (_node G) as [|nd l IH]; [done|].
  cbn [fmap list_fmap omap list_omap snd]. rewrite IH.
  by destruct (attr_node nd.2).
Qed.





(** *** Lockstep of key and name (C8) *)

Lemma lockstep_all_records G h : lockstep G h → all_records (_node G).
Proof.
  intros Hl. eapply Forall_impl; [exact Hl|].
  intros [k d]. unfold name_of, carries_record.
  cbn [snd]. by destruct (attr_node d).
Qed.

Lemma lockstep_refs_NoDup G h :
  NoDup (keys (_node G)) → lockstep G h → NoDup (refs (_node G)).
Proof.
  unfold lockstep. induction (_node G) as [|[k d] l IH]; intros Hnd Hl.
  - constructor.
  - cbn [keys fmap list_fmap fst] in Hnd.
    apply NoDup_cons in Hnd as [Hk Hnd]. apply Forall_cons in Hl as [Hd Hl].
    rewrite refs_cons. cbn [snd] in *. unfold name_of in Hd.
    destruct (attr_node d) as [r|]; [|done]. injection Hd as Hd.
    simpl. apply NoDup_cons. split; [|by apply IH].
    intros Hr. unfold refs in Hr.
    apply list_elem_of_omap in Hr as ([k' d'] & Hin & Hr'). cbn [snd] in Hr'.
    rewrite Forall_forall in Hl. specialize (Hl _ Hin).
    unfold name_of in Hl. cbn [fst snd] in Hl. rewrite Hr' in Hl.
    injection Hl as Hl. apply Hk.
    apply (list_elem_of_fmap_2 fst) in Hin. cbn [fst] in Hin. congruence.
Qed.

(** C8: on a well-formed graph in which every key is the name of the
    attached record, [rename_nodes] returns a graph, and in it every key is
    again the name of the attached record. *)
Theorem rename_nodes_lockstep (G : DiGraph) (suffix : string)
    (ignore_inputs : bool) (w : world) :
  wf_graph G → lockstep G (heap w) →
  ∃ G' w', rename_nodes G suffix ignore_inputs w = (Ok G', w') ∧
           lockstep G' (heap w').
Proof.
  intros Hwf Hl. pose proof (lockstep_all_records _ _ Hl) as Hall.
  pose proof (lockstep_refs_NoDup _ _ (proj1 Hwf) Hl) as Hrefs.
  eexists _, _. split; [by apply rename_nodes_run|].
  cbn [heap]. apply Forall_forall. intros [k' d] Hin.
  apply relabel_nodes_node_elem in Hin as (k & Hin & ->); [|done].
  rewrite (loop_mapping_get suffix ignore_inputs _ (heap w) (k, d))
    by (apply Hwf || done).
  unfold lockstep in Hl. rewrite Forall_forall in Hl.
  specialize (Hl _ Hin). unfold name_of in *. cbn [fst snd] in *.
  destruct (attr_node d) as [r|] eqn:Hr; [|done]. injection Hl as Hl.
  cbn [fmap option_fmap option_map]. f_equal.
  rewrite (loop_heap_record suffix ignore_inputs _ _ (k, d) r) by done.
  unfold new_key. cbn [fst snd].
  destruct (renames ignore_inputs (heap w) d); [|done].
  unfold suffixed. simpl. by rewrite Hl.
Qed.

Lemma rename_nodes_lockstep_witness :
  ∃ G' w', rename_nodes sel_graph "_i" true sel_world = (Ok G', w') ∧
           lockstep G' (heap w').
Proof.
  apply rename_nodes_lockstep; by_compute.
Defined.

(** * Further properties *)

(** ** rename_nodes: a node without a record *)

Lemma rename_loop_raise suffix ign pre nd post m w :
  all_records pre → carries_record nd.2 = false →
  for_fold (rename_body suffix ign) m (pre ++ nd :: post) w
  = (Raise (KeyError "node"),
     World (loop_heap suffix ign pre (heap w)) (log w) (stderr w) (cwd w)).
Proof.
  revert m w. induction pre as [|nd0 pre IH]; intros m w Hall Hnd.
  - cbn [app for_fold]. rewrite run_bind, rename_body_raise by done.
    by destruct w.
  - apply Forall_cons in Hall as [Hnd0 Hall]. cbn [app for_fold].
    rewrite run_bind, rename_body_run by done. by rewrite IH.
Qed.

(** X1: when a node carries no record, [rename_nodes] raises
    [KeyError("node")] and returns no graph, but the nodes that come before
    it in iteration order have been processed: the record of each of them
    that is renamed already bears the suffix (no record being shared among
    them), and every record not attached to one of them is as it was. *)
Theorem rename_nodes_missing_record (G : DiGraph) (suffix : string)
    (ignore_inputs : bool) (w : world)
    (pre post : list (string * attrs)) (nd : string * attrs) :
  _node G = pre ++ nd :: post →
  all_records pre →
  attr_node nd.2 = None →
  NoDup (refs pre) →
  ∃ w', rename_nodes G suffix ignore_inputs w = (Raise (KeyError "node"), w') ∧
    log w' = log w ∧ stderr w' = stderr w ∧ cwd w' = cwd w ∧
    (∀ nd' r, nd' ∈ pre → attr_node nd'.2 = Some r →
       heap w' r = if renames ignore_inputs (heap w) nd'.2
                   then suffixed suffix (heap w r) else heap w r) ∧
    (∀ r, r ∉ refs pre → heap w' r = heap w r).
Proof.
  intros HG Hall Hnd Hrefs. eexists. split.
  - unfold rename_nodes, nodes_data. rewrite run_bind, HG.
    rewrite rename_loop_raise; [done|done|].
    unfold carries_record. by rewrite Hnd.
  - cbn [heap log stderr cwd]. repeat split; try done.
    + intros nd' r Hin Hr. by apply loop_heap_record.
    + intros r Hr. by apply loop_heap_other.
Qed.

Lemma rename_nodes_missing_record_witness :
  ∃ w', rename_nodes broken_graph "_f" true sel_world
        = (Raise (KeyError "node"), w') ∧
    log w' = log sel_world ∧ stderr w' = stderr sel_world ∧
    cwd w' = cwd sel_world ∧
    (∀ nd' r, nd' ∈ [("sel", Attrs (Some 1) ∅)] → attr_node nd'.2 = Some r →
       heap w' r = if renames true (heap sel_world) nd'.2
                   then suffixed "_f" (heap sel_world r)
                   else heap sel_world r) ∧
    (∀ r, r ∉ refs [("sel", Attrs (Some 1) ∅)] →
          heap w' r = heap sel_world r).
Proof.
  apply (rename_nodes_missing_record broken_graph "_f" true sel_world
           [("sel", Attrs (Some 1) ∅)] [("sel_i", Attrs (Some 0) ∅)]
           ("x", Attrs None ∅));
    [reflexivity|by_compute|reflexivity|by_compute].
Defined.

(** ** Images of a graph *)

Lemma image_ext f g G :
  wf_graph G → (∀ k, k ∈ keys (_node G) → f k = g k) →
  image f G = image g G.
Proof.
  intros (_ & Hkeys & Hsucc) Hfg. unfold image. f_equal.
  - apply Forall_fmap_ext_1, Forall_forall. intros [k d] Hin. cbn [fst snd].
    f_equal. apply Hfg. by apply (list_elem_of_fmap_2 fst) in Hin.
  - unfold relabel_succ. apply Forall_fmap_ext_1, Forall_forall.
    intros [u nbrs] Hin. cbn [fst snd].
    rewrite Forall_forall in Hsucc. destruct (Hsucc _ Hin) as [_ Hsub].
    cbn [snd] in Hsub. f_equal.
    + apply Hfg. rewrite <- Hkeys. by apply (list_elem_of_fmap_2 fst) in Hin.
    + unfold relabel_nbrs. apply Forall_fmap_ext_1, Forall_forall.
      intros [v dd] Hv. cbn [fst snd]. f_equal. apply Hfg, Hsub.
      by apply (list_elem_of_fmap_2 fst) in Hv.
Qed.

Lemma list_fmap_id_ext {A} (f : A → A) (l : list A) :
  (∀ x, f x = x) → f <$> l = l.
Proof.
  intros Hf. induction l as [|x l IH]; [done|].
  cbn [fmap list_fmap] in *. by rewrite Hf, IH.
Qed.

Lemma image_id G : image id G = G.
Proof.
  destruct G as [N S g]. unfold image, relabel_succ, relabel_nbrs.
  cbn [_node _succ graph]. f_equal.
  - apply list_fmap_id_ext. by intros [k d].
  - apply list_fmap_id_ext. intros [u nbrs]. cbn [fst snd]. f_equal.
    apply list_fmap_id_ext. by intros [v dd].
Qed.

Lemma image_compose f g G : image g (image f G) = image (g ∘ f) G.
Proof.
  unfold image, relabel_succ, relabel_nbrs. cbn [_node _succ graph]. f_equal.
  - rewrite <- list_fmap_compose. by apply list_fmap_ext.
  - rewrite <- list_fmap_compose. apply list_fmap_ext.
    intros i [u nbrs] _. unfold compose. cbn [fst snd]. f_equal.
    rewrite <- list_fmap_compose. by apply list_fmap_ext.
Qed.

Lemma keys_image f G : keys (_node (image f G)) = f <$> keys (_node G).
Proof.
  unfold image, keys. cbn [_node]. rewrite <- !list_fmap_compose.
  by apply list_fmap_ext.
Qed.

Lemma values_image f G : nodes_values (image f G) = nodes_values G.
Proof.
  unfold image, nodes_values, values. cbn [_node].
  rewrite <- !list_fmap_compose. by apply list_fmap_ext.
Qed.

(** ** rename_nodes: the empty suffix *)

Lemma suffixed_empty n : suffixed "" n = n.
Proof. destruct n. unfold suffixed, Node.set_name. simpl.
  by rewrite string_app_nil_r. Qed.

Lemma loop_heap_empty_suffix ign items h r :
  loop_heap "" ign items h r = h r.
Proof.
  revert h. induction items as [|nd items IH]; intros h; [done|].
  rewrite loop_heap_cons, IH. unfold body_heap.
  destruct (attr_node nd.2) as [r0|]; [|done].
  destruct (renames ign h nd.2); [|done].
  destruct (decide (r0 = r)) as [->|Hne].
  - by rewrite fn_lookup_insert, suffixed_empty.
  - by rewrite fn_lookup_insert_ne.
Qed.

(** X2: with the empty suffix, on a well-formed graph whose nodes all carry
    a record, [rename_nodes] returns a graph equal to its argument and
    leaves every record and both output channels as they were, whatever the
    flag and also when records are shared. *)
Theorem rename_nodes_empty_suffix (G : DiGraph) (ignore_inputs : bool)
    (w : world) :
  wf_graph G → all_records (_node G) →
  ∃ w', rename_nodes G "" ignore_inputs w = (Ok G, w') ∧
        (∀ r, heap w' r = heap w r) ∧
        log w' = log w ∧ stderr w' = stderr w ∧ cwd w' = cwd w.
Proof.
  intros Hwf Hall.
  assert (∀ nd, new_key "" ignore_inputs (heap w) nd = nd.1) as Hkey.
  { intros nd. unfold new_key.
    destruct (renames _ _ _); [apply string_app_nil_r|done]. }
  destruct (rename_nodes_image G "" ignore_inputs w Hwf Hall)
    as (f & Hf & _ & Hrun).
  { rewrite (list_fmap_ext _ fst (_node G) (λ _ nd _, Hkey nd)). apply Hwf. }
  rewrite Hrun. eexists. split.
  - do 2 f_equal. rewrite <- (image_id G) at 2.
    apply image_ext; [done|]. intros k Hk.
    apply list_elem_of_fmap in Hk as (nd & -> & Hnd).
    by rewrite (Hf nd Hnd), Hkey.
  - cbn [heap log stderr cwd]. split; [apply loop_heap_empty_suffix|done].
Qed.

Lemma rename_nodes_empty_suffix_witness :
  ∃ w', rename_nodes sel_graph "" true sel_world = (Ok sel_graph, w') ∧
        (∀ r, heap w' r = heap sel_world r) ∧
        log w' = log sel_world ∧ stderr w' = stderr sel_world ∧
        cwd w' = cwd sel_world.
Proof. apply rename_nodes_empty_suffix; by_compute. Defined.

(** ** rename_nodes: the graph passed in *)

Lemma string_app_neq (k suffix : string) : suffix ≠ "" → k +:+ suffix ≠ k.
Proof.
  intros Hne Heq. apply (f_equal String.length) in Heq.
  rewrite string_app_length in Heq. destruct suffix; [done|]. simpl in Heq. lia.
Qed.

(** X3: the records are renamed in place, so they are renamed for the
    graph that was passed in as well, whose keys stay as they were.  On a
    well-formed graph in which every key is the name of the attached
    record, after [rename_nodes] the record of each node of that graph is
    named by the node's new key; with a non-empty suffix the graph passed in
    is therefore out of step at every renamed node. *)
Theorem rename_nodes_renames_in_place (G : DiGraph) (suffix : string)
    (ignore_inputs : bool) (w : world) :
  wf_graph G → lockstep G (heap w) →
  ∃ G' w', rename_nodes G suffix ignore_inputs w = (Ok G', w') ∧
    (∀ nd, nd ∈ _node G →
       name_of (heap w') nd.2
       = Some (new_key suffix ignore_inputs (heap w) nd)) ∧
    (∀ nd, nd ∈ _node G → suffix ≠ "" →
       renames ignore_inputs (heap w) nd.2 = true →
       name_of (heap w') nd.2 ≠ Some nd.1).
Proof.
  intros Hwf Hl. pose proof (lockstep_all_records _ _ Hl) as Hall.
  pose proof (lockstep_refs_NoDup _ _ (proj1 Hwf) Hl) as Hrefs.
  eexists _, _. split; [by apply rename_nodes_run|]. cbn [heap].
  assert (∀ nd, nd ∈ _node G →
            name_of (loop_heap suffix ignore_inputs (_node G) (heap w)) nd.2
            = Some (new_key suffix ignore_inputs (heap w) nd)) as Hname.
  { intros nd Hin. unfold lockstep in Hl. rewrite Forall_forall in Hl.
    specialize (Hl _ Hin). unfold name_of in *.
    destruct (attr_node nd.2) as [r|] eqn:Hr; [|done]. injection Hl as Hl.
    cbn [fmap option_fmap option_map]. f_equal.
    rewrite (loop_heap_record suffix ignore_inputs _ _ nd r) by done.
    unfold new_key. destruct (renames _ _ _); [|done].
    unfold suffixed. simpl. by rewrite Hl. }
  split; [done|]. intros nd Hin Hne Hren. rewrite Hname by done.
  unfold new_key. rewrite Hren. intros [= Heq]. by eapply string_app_neq.
Qed.

Lemma rename_nodes_renames_in_place_witness :
  ∃ G' w', rename_nodes sel_graph "_f" true sel_world = (Ok G', w') ∧
    (∀ nd, nd ∈ _node sel_graph →
       name_of (heap w') nd.2
       = Some (new_key "_f" true (heap sel_world) nd)) ∧
    (∀ nd, nd ∈ _node sel_graph → "_f" ≠ "" →
       renames true (heap sel_world) nd.2 = true →
       name_of (heap w') nd.2 ≠ Some nd.1).
Proof. apply rename_nodes_renames_in_place; by_compute. Defined.

(** ** relabel_nodes keeps the graph well formed *)

Lemma dict_get_Some_elem {V} (d : pydict V) k v :
  dict_get d k = Some v → (k, v) ∈ d.
Proof.
  induction d as [|[k0 v0] d IH]; simpl; [done|].
  destruct (String.eqb_spec k k0) as [->|].
  - intros [= ->]. by left.
  - intros H. right. by apply IH.
Qed.

Lemma Forall_dict_set {V} (P : string * V → Prop) (d : pydict V) k v :
  Forall P d → P (k, v) → Forall P (dict_set d k v).
Proof.
  intros Hd Hkv. induction Hd as [|[k0 v0] d H0 Hd IH]; simpl.
  - by constructor.
  - destruct (String.eqb_spec k k0) as [->|]; by constructor.
Qed.

Lemma dict_set_keys_elem {V} (d : pydict V) k v x :
  x ∈ keys (dict_set d k v) ↔ x = k ∨ x ∈ keys d.
Proof.
  destruct (decide (k ∈ keys d)) as [Hin|Hn].
  - rewrite dict_set_keys_present by done. split; [tauto|].
    by intros [->|?].
  - rewrite dict_set_keys_fresh by done.
    rewrite elem_of_app, list_elem_of_singleton. tauto.
Qed.

Lemma wf_graph_weaken N N' S g :
  wf_graph (Graph N S g) → keys N' = keys N → wf_graph (Graph N' S g).
Proof. unfold wf_graph. cbn [_node _succ]. by intros H ->. Qed.

Lemma wf_add_node G k : wf_graph G → wf_graph (add_node G k).
Proof.
  intros (Hnd & Hkeys & Hsucc). unfold add_node.
  destruct (dict_contains (_node G) k) eqn:E; [done|].
  apply dict_contains_false in E. unfold wf_graph. cbn [_node _succ].
  rewrite !dict_set_keys_fresh by (by rewrite ?Hkeys). split; [|split].
  - apply NoDup_app. split; [done|]. split; [|apply NoDup_singleton].
    by intros x Hx ->%list_elem_of_singleton.
  - by rewrite Hkeys.
  - rewrite dict_set_fresh by (by rewrite Hkeys). apply Forall_app. split.
    + eapply Forall_impl; [exact Hsucc|]. intros un [? Hsub].
      split; [done|]. intros x Hx. apply elem_of_app. left. by apply Hsub.
    + constructor; [|constructor]. cbn [snd keys fmap list_fmap].
      split; [constructor|]. by intros x Hx%elem_of_nil.
Qed.

Lemma wf_add_nodes_from G ks : wf_graph G → wf_graph (add_nodes_from G ks).
Proof.
  revert G. induction ks as [|k ks IH]; intros G Hwf; [done|].
  apply IH. by apply wf_add_node.
Qed.

Lemma wf_add_edge H u v dd :
  wf_graph H → u ∈ keys (_succ H) → v ∈ keys (_succ H) →
  wf_graph (add_edge H (u, v, dd)).
Proof.
  intros (Hnd & Hkeys & Hsucc) Hu Hv. unfold add_edge, ensure_node.
  rewrite (proj2 (dict_contains_true _ _) Hu).
  rewrite (proj2 (dict_contains_true _ _) Hv).
  unfold wf_graph. cbn [_node _succ]. split; [done|].
  split; [by rewrite dict_set_keys_present|].
  apply Forall_dict_set; [done|]. cbn [snd].
  assert (NoDup (keys (default [] (dict_get (_succ H) u))) ∧
          keys (default [] (dict_get (_succ H) u)) ⊆ keys (_node H))
    as [Hn Hsub].
  { destruct (dict_get (_succ H) u) as [nbrs|] eqn:E; cbn [from_option id].
    - apply dict_get_Some_elem in E. rewrite Forall_forall in Hsucc.
      apply (Hsucc _ E).
    - split; [constructor|]. by intros x Hx%elem_of_nil. }
  split; [by apply dict_set_NoDup|].
  intros x [->|Hx]%dict_set_keys_elem; [by rewrite <- Hkeys|by apply Hsub].
Qed.

Lemma wf_add_edges_from H es :
  wf_graph H →
  Forall (λ e, e.1.1 ∈ keys (_succ H) ∧ e.1.2 ∈ keys (_succ H)) es →
  wf_graph (add_edges_from H es).
Proof.
  revert H. induction es as [|[[u v] dd] es IH]; intros H Hwf Hes; [done|].
  apply Forall_cons in Hes as [[Hu Hv] Hes]. cbn [fst snd] in *.
  unfold add_edges_from. cbn [fold_left].
  change (fold_left add_edge es ?x) with (add_edges_from x es).
  destruct (add_edge_nodes H u v dd Hu Hv) as [_ Hs].
  apply IH; [by apply wf_add_edge|]. by rewrite Hs.
Qed.

Lemma wf_relabel_nodes G mapping :
  wf_graph G → wf_graph (relabel_nodes G mapping).
Proof.
  intros Hwf. unfold relabel_nodes.
  set (f := mapping_get mapping).
  destruct (add_nodes_from_props empty_graph (f <$> keys (_node G)))
    as (Hk1 & Hnd1 & Hel1); [done|apply NoDup_nil_2|].
  pose proof (wf_add_nodes_from empty_graph (f <$> keys (_node G))) as Hwf1.
  set (H1 := add_nodes_from empty_graph _) in *.
  set (pairs := (λ nd, (f nd.1, nd.2)) <$> nodes_data G).
  assert (keys pairs = f <$> keys (_node G)) as Hkp.
  { subst pairs. unfold keys, nodes_data. rewrite <- !list_fmap_compose.
    by apply list_fmap_ext. }
  assert (wf_graph (node_update H1 pairs)) as Hwf2.
  { unfold node_update. apply (wf_graph_weaken (_node H1)).
    - destruct H1. apply Hwf1. repeat split; try constructor.
    - apply dict_update_keys. rewrite Hkp. intros x Hx. apply Hel1. by right. }
  set (H3 := add_edges_from _ _).
  assert (wf_graph H3) as Hwf3.
  { subst H3. apply wf_add_edges_from; [done|].
    unfold node_update. cbn [_succ]. rewrite Hk1.
    apply Forall_fmap, Forall_forall. intros e He.
    destruct (edges_ends G e Hwf He) as [Hu Hv]. unfold compose. cbn [fst snd].
    split; apply Hel1; right; by apply list_elem_of_fmap_2. }
  exact Hwf3.
Qed.

(** X4: whatever the suffix and the flag, and also when nodes are merged,
    the graph returned by [rename_nodes] for a well-formed graph is well
    formed: its keys are pairwise distinct, its successor table has the keys
    of its node table, and both ends of every edge are nodes. *)
Theorem rename_nodes_wf (G G' : DiGraph) (suffix : string)
    (ignore_inputs : bool) (w : world) :
  wf_graph G →
  (rename_nodes G suffix ignore_inputs w).1 = Ok G' →
  wf_graph G'.
Proof.
  intros Hwf Hrun. pose proof (rename_nodes_ok _ _ _ _ _ Hrun) as Hall.
  rewrite rename_nodes_run in Hrun by done. injection Hrun as <-.
  by apply wf_relabel_nodes.
Qed.

Lemma rename_nodes_wf_witness :
  wf_graph (Graph [("sel_i", Attrs (Some 1) ∅)] [("sel_i", [("sel_i", ∅)])] ∅).
Proof.
  apply (rename_nodes_wf sel_graph _ "_i" true sel_world);
    [by_compute|reflexivity].
Defined.

(** ** rename_nodes after rename_nodes *)

Lemma renames_loop_heap suffix ign items h d :
  renames ign (loop_heap suffix ign items h) d = renames ign h d.
Proof.
  unfold renames. destruct (attr_node d) as [r|]; [|done].
  by destruct (loop_heap_frame suffix ign items h r) as (_ & -> & _).
Qed.

Lemma suffixed_suffixed s1 s2 n :
  suffixed s2 (suffixed s1 n) = suffixed (s1 +:+ s2) n.
Proof.
  destruct n. unfold suffixed, Node.set_name. simpl.
  by rewrite string_app_assoc.
Qed.

Lemma all_records_image f G :
  all_records (_node G) → all_records (_node (image f G)).
Proof.
  unfold all_records, image. cbn [_node]. intros Hall.
  apply Forall_fmap. eapply Forall_impl; [exact Hall|]. by intros [k d].
Qed.

(** X5: renaming with a suffix and renaming the result with a second
    suffix gives the graph that renaming once with the two suffixes joined
    gives, and the same names in the records.  The graph is well formed, its
    nodes each carry a record of their own, and with inputs ignored neither
    the first suffix nor the joined one makes two keys coincide. *)
Theorem rename_nodes_twice (G : DiGraph) (s1 s2 : string)
    (ignore_inputs : bool) (w : world) :
  wf_graph G → all_records (_node G) → NoDup (refs (_node G)) →
  (ignore_inputs = true →
   NoDup (new_key s1 true (heap w) <$> _node G) ∧
   NoDup (new_key (s1 +:+ s2) true (heap w) <$> _node G)) →
  ∃ G1 w1 G2 w2 w12,
    rename_nodes G s1 ignore_inputs w = (Ok G1, w1) ∧
    rename_nodes G1 s2 ignore_inputs w1 = (Ok G2, w2) ∧
    rename_nodes G (s1 +:+ s2) ignore_inputs w = (Ok G2, w12) ∧
    (∀ r, heap w2 r = heap w12 r) ∧
    log w2 = log w12 ∧ stderr w2 = stderr w12 ∧ cwd w2 = cwd w12.
Proof.
  intros Hwf Hall Hrefs Hkeys.
  assert (NoDup (new_key s1 ignore_inputs (heap w) <$> _node G) ∧
          NoDup (new_key (s1 +:+ s2) ignore_inputs (heap w) <$> _node G))
    as [Hn1 Hn12].
  { destruct ignore_inputs; [by apply Hkeys|].
    split; apply new_keys_all_distinct; (done || apply Hwf). }
  destruct (rename_nodes_image G s1 ignore_inputs w Hwf Hall Hn1)
    as (f1 & Hf1 & Hinj1 & Hrun1).
  destruct (rename_nodes_image G (s1 +:+ s2) ignore_inputs w Hwf Hall Hn12)
    as (f12 & Hf12 & _ & Hrun12).
  set (h1 := loop_heap s1 ignore_inputs (_node G) (heap w)) in *.
  set (w1 := World h1 (log w) (stderr w) (cwd w)) in *.
  assert (wf_graph (image f1 G)) as Hwf1.
  { pose proof (f_equal (λ x, match x.1 with Ok a => a | Raise _ => G end)
                  Hrun1) as Hrel.
    rewrite rename_nodes_run in Hrel by done. cbn beta iota delta [fst] in Hrel.
    rewrite <- Hrel. by apply wf_relabel_nodes. }
  assert (∀ nd, nd ∈ _node G →
            new_key s2 ignore_inputs h1 (f1 nd.1, nd.2)
            = new_key (s1 +:+ s2) ignore_inputs (heap w) nd) as Hk2.
  { intros nd Hnd. unfold new_key at 1. cbn [fst snd]. subst h1.
    rewrite renames_loop_heap, (Hf1 nd Hnd). unfold new_key.
    destruct (renames ignore_inputs (heap w) nd.2); [|done].
    by rewrite string_app_assoc. }
  assert (NoDup (new_key s2 ignore_inputs (heap w1) <$> _node (image f1 G)))
    as Hn2.
  { unfold image. cbn [_node heap]. rewrite <- list_fmap_compose.
    rewrite (Forall_fmap_ext_1 _ (new_key (s1 +:+ s2) ignore_inputs (heap w))); [done|].
    apply Forall_forall. intros nd Hnd. by apply Hk2. }
  destruct (rename_nodes_image (image f1 G) s2 ignore_inputs w1 Hwf1
              (all_records_image f1 G Hall) Hn2)
    as (f2 & Hf2 & _ & Hrun2).
  eexists _, _, _, _, _. split; [exact Hrun1|]. split; [exact Hrun2|].
  split; [|split].
  - rewrite Hrun12. do 2 f_equal. rewrite image_compose. symmetry.
    apply image_ext; [done|]. intros k Hk.
    apply list_elem_of_fmap in Hk as (nd & -> & Hnd). unfold compose.
    rewrite (Hf12 nd Hnd), <- (Hk2 nd Hnd).
    apply (Hf2 (f1 nd.1, nd.2)). unfold image. cbn [_node].
    by apply (list_elem_of_fmap_2 (λ nd, (f1 nd.1, nd.2))).
  - intros r. subst w1 h1. cbn [heap] in *.
    destruct (decide (r ∈ refs (_node G))) as [Hr|Hr].
    + unfold refs in Hr. apply list_elem_of_omap in Hr as (nd & Hnd & Hr).
      assert ((f1 nd.1, nd.2) ∈ _node (image f1 G)) as Hnd1.
      { unfold image. cbn [_node].
        by apply (list_elem_of_fmap_2 (λ nd, (f1 nd.1, nd.2))). }
      rewrite (loop_heap_record s2 ignore_inputs _ _ (f1 nd.1, nd.2) r);
        [|by rewrite refs_image|done|done].
      rewrite (loop_heap_record (s1 +:+ s2) ignore_inputs _ _ nd r) by done.
      cbn [snd]. rewrite renames_loop_heap.
      rewrite (loop_heap_record s1 ignore_inputs _ _ nd r) by done.
      destruct (renames ignore_inputs (heap w) nd.2); [|done].
      apply suffixed_suffixed.
    + rewrite (loop_heap_other s2) by by rewrite refs_image.
      by rewrite !loop_heap_other.
  - done.
Qed.

Lemma rename_nodes_twice_witness :
  ∃ G1 w1 G2 w2 w12,
    rename_nodes sel_graph "_f" true sel_world = (Ok G1, w1) ∧
    rename_nodes G1 "_g" true w1 = (Ok G2, w2) ∧
    rename_nodes sel_graph ("_f" +:+ "_g") true sel_world = (Ok G2, w12) ∧
    (∀ r, heap w2 r = heap w12 r) ∧
    log w2 = log w12 ∧ stderr w2 = stderr w12 ∧ cwd w2 = cwd w12.
Proof.
  apply rename_nodes_twice; [by_compute|by_compute|by_compute|].
  intros _. split; by_compute.
Defined.

(** ** The reports after rename_nodes *)

Lemma is_register_frame env h h' d :
  (∀ r, same_but_name (h r) (h' r)) →
  is_register env h' d = is_register env h d.
Proof.
  intros Hh. unfold is_register. destruct (attr_node d) as [r|]; [|done].
  by destruct (Hh r) as (_ & -> & _).
Qed.

Lemma gate_of_frame h h' d :
  (∀ r, same_but_name (h r) (h' r)) → gate_of h' d = gate_of h d.
Proof.
  intros Hh. unfold gate_of. destruct (attr_node d) as [r|]; [|done].
  simpl. by destruct (Hh r) as (_ & -> & _).
Qed.

Lemma omap_ext_all {A B} (f g : A → option B) (l : list A) :
  (∀ x, f x = g x) → omap f l = omap g l.
Proof.
  intros Hfg. induction l as [|x l IH]; [done|].
  cbn [omap list_omap]. by rewrite Hfg, IH.
Qed.

(** X6: renaming does not show in the reports.  When [rename_nodes] returns
    a graph for a well-formed graph and, with inputs ignored, no two new
    keys coincide, [get_registers] returns for the new graph the attribute
    dictionaries it returns for the old one, in the same order, and
    [print_graph_stat] emits the same records. *)
Theorem rename_nodes_keeps_reports (env : environment) (G G' : DiGraph)
    (suffix : string) (ignore_inputs : bool) (w w' : world) :
  wf_graph G →
  (ignore_inputs = true →
   NoDup (new_key suffix true (heap w) <$> _node G)) →
  rename_nodes G suffix ignore_inputs w = (Ok G', w') →
  (get_registers env G' w').1 = (get_registers env G w).1 ∧
  log (print_graph_stat env G' w').2 = log (print_graph_stat env G w).2.
Proof.
  intros Hwf Hkeys Hrun.
  assert ((rename_nodes G suffix ignore_inputs w).1 = Ok G') as Hok
    by by rewrite Hrun.
  pose proof (rename_nodes_ok _ _ _ _ _ Hok) as Hall.
  assert (NoDup (new_key suffix ignore_inputs (heap w) <$> _node G)) as Hnew.
  { destruct ignore_inputs; [by apply Hkeys|].
    apply new_keys_all_distinct; [done|apply Hwf]. }
  destruct (rename_nodes_image G suffix ignore_inputs w Hwf Hall Hnew)
    as (f & _ & _ & Hrun').
  rewrite Hrun' in Hrun. injection Hrun as <- <-.
  assert (∀ r, same_but_name (heap w r)
                 (loop_heap suffix ignore_inputs (_node G) (heap w) r)) as Hh
    by (intros r; apply loop_heap_frame).
  rewrite !get_registers_run, !print_graph_stat_run. cbn [fst snd heap log].
  rewrite values_image. unfold gate_types. rewrite values_image. split.
  - f_equal. apply List.filter_ext. intros d. by apply is_register_frame.
  - rewrite (omap_ext_all (gate_of (loop_heap _ _ _ _)) (gate_of (heap w)));
      [done|]. intros d. by apply gate_of_frame.
Qed.

Lemma rename_nodes_keeps_reports_witness :
  (get_registers env_example
     (Graph [("sel_i", Attrs (Some 0) ∅); ("sel_f", Attrs (Some 1) ∅)]
            [("sel_i", [("sel_f", ∅)]); ("sel_f", [])] ∅)
     (rename_nodes sel_graph "_f" true sel_world).2).1
  = (get_registers env_example sel_graph sel_world).1 ∧
  log (print_graph_stat env_example
     (Graph [("sel_i", Attrs (Some 0) ∅); ("sel_f", Attrs (Some 1) ∅)]
            [("sel_i", [("sel_f", ∅)]); ("sel_f", [])] ∅)
     (rename_nodes sel_graph "_f" true sel_world).2).2
  = log (print_graph_stat env_example sel_graph sel_world).2.
Proof.
  apply (rename_nodes_keeps_reports env_example sel_graph _ "_f" true
           sel_world); [by_compute|intros _; by_compute|reflexivity].
Defined.

(** ** Gate statistics: the counts *)

Lemma runs_counts_sum (l : list string) :
  sum_list (runs l).*2 = List.length l ∧ Forall (λ c, 0 < c) (runs l).*2.
Proof.
  induction l as [|x l [IHs IHp]]; [by split; [|constructor]|].
  simpl. destruct (runs l) as [|[y c] r].
  - destruct l; [|discriminate]. simpl. split; [done|].
    constructor; [lia|constructor].
  - simpl in *. apply Forall_cons in IHp as [Hc Hr].
    destruct (String.eqb x y); simpl.
    + split; [lia|]. constructor; [lia|done].
    + split; [lia|]. constructor; [lia|]. by constructor.
Qed.

Lemma zip_with_fst_snd {A B C} (f : A → B → C) (r : list (A * B)) :
  zip_with f r.*1 r.*2 = (λ p, f p.1 p.2) <$> r.
Proof.
  induction r as [|[a b] r IH]; [done|].
  cbn [fmap list_fmap zip_with fst snd] in *. by rewrite IH.
Qed.

(** X7: in the report of [print_graph_stat] no count is zero and the
    counts add up to the number of nodes that carry a record. *)
Theorem print_graph_stat_counts (env : environment) (G : DiGraph)
    (w : world) :
  ∃ types counts,
    List.length types = List.length counts ∧
    log (print_graph_stat env G w).2
    = log w ++ zip_with stat_line types counts ++ [header env] ∧
    Forall (λ c, 0 < c) counts ∧
    sum_list counts
    = List.length (List.filter carries_record (nodes_values G)).
Proof.
  set (r := runs (sort (np_array (gate_types (heap w) G)))).
  exists r.*1, r.*2. split; [by rewrite !length_fmap|]. split; [|split].
  - by rewrite print_graph_stat_run, zip_with_fst_snd.
  - apply runs_counts_sum.
  - subst r. rewrite (proj1 (runs_counts_sum _)).
    assert (∀ l, List.length (sort l) = List.length l) as Hlen.
    { induction l as [|x l IH]; [done|]. simpl. rewrite <- IH.
      generalize (sort l) as s. induction s as [|y s IHs]; [done|].
      simpl. destruct (String.leb x y); simpl; [done|]. by rewrite IHs. }
    rewrite Hlen. unfold np_array, gate_types. rewrite length_fmap.
    induction (nodes_values G) as [|d l IH]; [done|].
    cbn [omap list_omap List.filter]. unfold gate_of at 1, carries_record at 1.
    destruct (attr_node d); simpl; by rewrite IH.
Qed.

(** ** Gate statistics: the order of the nodes *)

Lemma sorted_occurrences_eq (l1 l2 : list string) :
  StronglySorted String.le l1 → StronglySorted String.le l2 →
  (∀ t, occurrences t l1 = occurrences t l2) → l1 = l2.
Proof.
  intros H1. revert l2. induction H1 as [|x l1 Hs1 IH Hx]; intros l2 H2 Hocc.
  - destruct l2 as [|y l2]; [done|]. specialize (Hocc y).
    rewrite occurrences_cons, String.eqb_refl in Hocc. done.
  - destruct H2 as [|y l2 Hs2 Hy].
    + specialize (Hocc x).
      rewrite occurrences_cons, String.eqb_refl in Hocc. done.
    + assert (x = y) as ->.
      { apply (anti_symm String.le).
        - destruct (decide (x = y)) as [->|Hne]; [done|].
          assert (y ∈ x :: l1) as Hin.
          { destruct (decide (y ∈ x :: l1)) as [|Hn]; [done|].
            apply occurrences_notin in Hn. specialize (Hocc y).
            rewrite Hn, occurrences_cons, String.eqb_refl in Hocc. done. }
          apply elem_of_cons in Hin as [->|Hin]; [done|].
          rewrite Forall_forall in Hx. by apply Hx.
        - destruct (decide (x = y)) as [->|Hne]; [done|].
          assert (x ∈ y :: l2) as Hin.
          { destruct (decide (x ∈ y :: l2)) as [|Hn]; [done|].
            apply occurrences_notin in Hn. specialize (Hocc x).
            rewrite Hn, occurrences_cons, String.eqb_refl in Hocc. done. }
          apply elem_of_cons in Hin as [->|Hin]; [done|].
          rewrite Forall_forall in Hy. by apply Hy. }
      f_equal. apply IH; [done|]. intros t. specialize (Hocc t).
      rewrite !occurrences_cons in Hocc. lia.
Qed.

Lemma occurrences_Permutation (t : string) (l1 l2 : list string) :
  l1 ≡ₚ l2 → occurrences t l1 = occurrences t l2.
Proof.
  induction 1 as [|x l1 l2 _ IH|x y l|l1 l2 l3 _ IH1 _ IH2]; [done|..].
  - by rewrite !occurrences_cons, IH.
  - rewrite !occurrences_cons. lia.
  - by rewrite IH1.
Qed.

(** X8: the report of [print_graph_stat] does not depend on the order in
    which the graph iterates over its nodes: two graphs whose
    record-carrying nodes have the same types up to order give the same
    records. *)
Theorem print_graph_stat_order (env : environment) (G1 G2 : DiGraph)
    (w1 w2 : world) :
  gate_types (heap w1) G1 ≡ₚ gate_types (heap w2) G2 →
  log w1 = log w2 →
  log (print_graph_stat env G1 w1).2 = log (print_graph_stat env G2 w2).2.
Proof.
  intros Hperm Hlog. rewrite !print_graph_stat_run. cbn [snd log].
  rewrite Hlog. do 4 f_equal.
  apply sorted_occurrences_eq; [apply sort_sorted..|].
  intros t. rewrite !sort_occurrences. apply occurrences_Permutation.
  unfold np_array. by apply fmap_Permutation.
Qed.

Lemma print_graph_stat_order_witness :
  log (print_graph_stat env_example stat_graph stat_world).2
  = log (print_graph_stat env_example stat_graph_shuffled stat_world).2.
Proof.
  apply print_graph_stat_order; [|reflexivity].
  apply (bool_decide_unpack _). vm_compute. exact I.
Defined.

(** ** show_and_exit: what it leaves behind *)

Lemma report_packages_frame env packages w :
  let run := for_fold (report_package env) tt packages w in
  heap run.2 = heap w ∧ log run.2 = log w ∧ cwd run.2 = cwd w.
Proof.
  revert w. induction packages as [|p packages IH]; intros w; [done|].
  cbv zeta. rewrite report_packages_cons.
  destruct (pkg_require env p) as [[|v rest]|e]; [done| |done].
  by destruct (IH (World (heap w) (log w) (stderr w ++ [package_line p v])
                         (cwd w))) as (-> & -> & ->).
Qed.

(** X9: [show_and_exit] changes the working directory of the process to
    the directory of the tool before anything else, and the change stays
    whatever happens afterwards (git missing, undecodable output, unknown
    package, exit).  When the path of the tool cannot be resolved, or the
    change of directory itself fails, the run ends with the exception of
    that step, whichever it is, the directory is kept and nothing is
    written.  The records and the log are never touched, and what is on the
    error stream stays there. *)
Theorem show_and_exit_effects (env : environment) (clitool : string)
    (packages : list string) (w : world) :
  let run := show_and_exit env clitool packages w in
  heap run.2 = heap w ∧ log run.2 = log w ∧
  stderr w `prefix_of` stderr run.2 ∧
  match util_path env clitool w with
  | Ok dir =>
      match fs_chdir env (path_str dir) with
      | None => cwd run.2 = dir
      | Some e => run = (Raise e, w)
      end
  | Raise e => run = (Raise e, w)
  end.
Proof.
  intros run. subst run. rewrite show_and_exit_run.
  destruct (util_path env clitool w) as [dir|e]; [|done].
  destruct (fs_chdir env (path_str dir)) as [e|]; [done|]. cbv zeta.
  destruct (git_describe env dir) as [out|]; [|done].
  destruct (is_ascii (strip out)); [|done].
  set (w1 := World _ _ _ _).
  destruct (report_packages_frame env packages w1) as (Hh & Hl & Hc).
  destruct (report_packages_outcome env packages w1) as (w' & Hpre & Hres).
  assert (stderr w `prefix_of` stderr w') as Hpre'.
  { etrans; [|exact Hpre]. subst w1. simpl. by apply prefix_app_r. }
  destruct Hres as [Hres|(p & e & _ & _ & Hres)]; rewrite Hres in *;
    cbn [fst snd] in *; by rewrite Hh, Hl, Hc.
Qed.

(** The directory of the tool can be a regular file, when the path of the
    tool runs through one: the change of directory then raises
    [NotADirectoryError], and the run ends with it. *)
Example show_and_exit_through_file :
  show_and_exit env_example "netlist.json/tool.py" [] world_example
  = (Raise (NotADirectoryError "/work/netlist.json"), world_example).
Proof. reflexivity. Qed.

(** ** show_and_exit: an unknown package *)

Lemma report_packages_fail env pre p post vs e w :
  mapM (found_version env) pre = Some vs →
  lookup_failure env p = Some e →
  for_fold (report_package env) tt (pre ++ p :: post) w
  = (Raise e,
     World (heap w) (log w) (stderr w ++ zip_with package_line pre vs)
           (cwd w)).
Proof.
  revert vs w. induction pre as [|q pre IH]; intros vs w Hvs Hp.
  - cbn in Hvs. injection Hvs as <-. cbn [app zip_with].
    rewrite report_packages_cons. unfold lookup_failure in Hp.
    destruct (pkg_require env p) as [[|v rest]|e']; simplify_eq;
      by rewrite app_nil_r, world_eta.
  - rewrite mapM_Some in Hvs. apply Forall2_cons_inv_l in Hvs
      as (v & vs' & Hv & Hvs & ->).
    apply mapM_Some in Hvs. cbn [app].
    apply found_version_Some in Hv as [rest Hv].
    rewrite report_packages_cons, Hv, (IH vs') by done. simpl.
    by rewrite <- List.app_assoc.
Qed.

(** X10: when the lookup of a package fails (the package is not installed,
    its version conflicts, or the result is empty), [show_and_exit] ends
    with the failure of the lookup and not with an exit: the revision line
    and the lines of the packages listed before it have been written,
    nothing is written for the packages after it. *)
Theorem show_and_exit_unknown_package (env : environment) (clitool : string)
    (pre post : list string) (p out : string) (vs : list string)
    (dir : Path) (e : exn) (w : world) :
  let ver := if String.eqb (strip out) "" then fallback else strip out in
  util_path env clitool w = Ok dir →
  fs_chdir env (path_str dir) = None →
  git_describe env dir = Ok out →
  is_ascii (strip out) = true →
  mapM (found_version env) pre = Some vs →
  lookup_failure env p = Some e →
  show_and_exit env clitool (pre ++ p :: post) w
  = (Raise e,
     World (heap w) (log w)
           (stderr w ++ version_line clitool ver ::
              zip_with package_line pre vs) dir).
Proof.
  intros ver Hdir Hcd Hgit Hascii Hvs Hp. rewrite show_and_exit_run.
  rewrite Hdir, Hcd. cbv zeta. rewrite Hgit, Hascii. fold ver.
  rewrite (report_packages_fail env pre p post vs e) by done. simpl.
  by rewrite <- List.app_assoc.
Qed.

Lemma show_and_exit_unknown_package_witness :
  show_and_exit env_git "fi_injector.py"
    (["numpy"] ++ "networkx" :: ["pyyaml"]) world_example
  = (Raise (DistributionNotFound "networkx"),
     World (heap world_example) (log world_example)
           (stderr world_example ++
              version_line "fi_injector.py" "v1.2-3-gabc" ::
              zip_with package_line ["numpy"] ["1.21.0"])
           (MkPath "/" ["work"])).
Proof.
  apply (show_and_exit_unknown_package env_git "fi_injector.py" ["numpy"]
           ["pyyaml"] "networkx" ("v1.2-3-gabc" +:+ nl) ["1.21.0"]
           (MkPath "/" ["work"]) (DistributionNotFound "networkx")
           world_example); reflexivity.
Defined.

(** ** Paths and the validators *)

(** X11: building a path from the text of a path built from any argument
    gives that path again, so each validator has the same outcome on the
    text of the path it built as on the argument: an accepted argument stays
    accepted when the returned path is written out and passed in again, and
    it gives the same path. *)
Theorem validators_on_path_text (env : environment) (s : string) (w : world) :
  path_of (path_str (path_of s)) = path_of s ∧
  ap_check_file_exists env (path_str (path_of s)) w
  = ap_check_file_exists env s w ∧
  ap_check_dir_exists env (path_str (path_of s)) w
  = ap_check_dir_exists env s w.
Proof.
  pose proof (path_of_str _ (normal_path_of s)) as Hback.
  split; [done|]. unfold ap_check_file_exists, ap_check_dir_exists.
  by rewrite Hback.
Qed.

(** X12: for an argument without a slash, [ap_check_dir_exists] looks at
    the current directory ["."]: the argument is accepted exactly when
    ["."] exists, when it does not the message names ["."], and another
    failure of the lookup of ["."] is raised as it is. *)
Theorem ap_check_dir_exists_bare_name (env : environment) (path : string)
    (w : world) :
  has_char "/" path = false →
  ap_check_dir_exists env path w
  = (match fs_stat env "." with
     | Stat _ => Ok (path_of path)
     | StatOSError e =>
         if ignore_error e
         then Raise (ArgumentTypeError "Path . does not exist")
         else Raise (OSError e)
     | StatValueError => Raise (ArgumentTypeError "Path . does not exist")
     end, w).
Proof.
  intros Hs.
  assert (path_str (parent (path_of path)) = ".") as Hparent.
  { unfold path_of.
    assert (splitroot path = ("", path)) as ->.
    { destruct path as [|c p]; [done|]. apply splitroot_no_slash.
      cbn [has_char] in Hs. by apply orb_false_elim in Hs as [? _]. }
    rewrite split_on_no_sep by done. simpl.
    by destruct (keep_component path). }
  rewrite ap_check_dir_exists_run. unfold dir_outcome. rewrite Hparent.
  destruct (fs_stat env ".") as [k|e|]; try done.
Qed.

Lemma ap_check_dir_exists_bare_name_witness :
  ap_check_dir_exists env_example "out.json" world_example
  = (Ok (MkPath "" ["out.json"]), world_example).
Proof.
  exact (ap_check_dir_exists_bare_name env_example "out.json" world_example
           eq_refl).
Defined.

(** ** rename_nodes: the flag on a graph without inputs *)

Lemma rename_body_flag suffix m nd w :
  gate_of (heap w) nd.2 ≠ Some "input" →
  rename_body suffix true m nd w = rename_body suffix false m nd w.
Proof.
  intros Hg. destruct (carries_record nd.2) eqn:Hc.
  - rewrite !rename_body_run by done. unfold body_mapping, body_heap, renames.
    unfold gate_of in Hg. destruct (attr_node nd.2) as [r|]; [|done].
    cbn [negb orb]. cbn in Hg.
    destruct (String.eqb_spec (Node.type (heap w r)) "input") as [E|]; [|done].
    by rewrite E in Hg.
  - by rewrite !rename_body_raise.
Qed.

Lemma no_inputs_frame h h' items :
  (∀ r, same_but_name (h r) (h' r)) → no_inputs h items → no_inputs h' items.
Proof.
  intros Hh Hno. eapply Forall_impl; [exact Hno|].
  intros nd Hnd. by rewrite (gate_of_frame h h').
Qed.

Lemma rename_loop_flag suffix items m w :
  no_inputs (heap w) items →
  for_fold (rename_body suffix true) m items w
  = for_fold (rename_body suffix false) m items w.
Proof.
  revert m w. induction items as [|nd items IH]; intros m w Hno; [done|].
  apply Forall_cons in Hno as [Hnd Hno]. cbn [for_fold].
  rewrite !run_bind, rename_body_flag by done.
  destruct (carries_record nd.2) eqn:Hc.
  - rewrite rename_body_run by done. apply IH. cbn [heap].
    eapply no_inputs_frame; [|exact Hno]. intros r. apply body_heap_frame.
  - by rewrite rename_body_raise.
Qed.

(** X13: on a graph none of whose records has the type ["input"], the flag
    makes no difference: [rename_nodes] with [ignore_inputs] set returns
    what it returns without it, be it a graph or the error of a node
    without a record, and leaves the same world. *)
Theorem rename_nodes_flag_without_inputs (G : DiGraph) (suffix : string)
    (w : world) :
  no_inputs (heap w) (_node G) →
  rename_nodes G suffix true w = rename_nodes G suffix false w.
Proof.
  intros Hno. unfold rename_nodes, nodes_data.
  by rewrite !run_bind, rename_loop_flag.
Qed.

Lemma rename_nodes_flag_without_inputs_witness :
  rename_nodes stat_graph "_f" true stat_world
  = rename_nodes stat_graph "_f" false stat_world.
Proof. apply rename_nodes_flag_without_inputs. by_compute. Defined.

(** ** The registers in the statistics *)

Lemma occurrences_np_gate_types h s (l : list attrs) :
  occurrences s (np_str <$> omap (gate_of h) l)
  = List.length (List.filter
                   (λ d, bool_decide (np_str <$> gate_of h d = Some s)) l).
Proof.
  induction l as [|d l IH]; [done|]. cbn [omap list_omap List.filter].
  destruct (gate_of h d) as [t'|] eqn:E.
  - cbn [fmap list_fmap option_fmap option_map]. rewrite occurrences_cons, IH.
    destruct (String.eqb_spec s (np_str t')) as [->|Hne].
    + by rewrite bool_decide_eq_true_2.
    + rewrite bool_decide_eq_false_2; [done|]. by intros [= <-].
  - rewrite IH. by rewrite bool_decide_eq_false_2.
Qed.

Lemma filter_filter_length {A} (P Q : A → bool) (l : list A) :
  (List.length (List.filter P (List.filter Q l))
   <= List.length (List.filter P l))%nat.
Proof.
  induction l as [|x l IH]; [done|]. simpl.
  destruct (Q x); simpl; destruct (P x); simpl; lia.
Qed.

Lemma filter_length_pos {A} (P : A → bool) (l : list A) (x : A) :
  x ∈ l → P x = true → (0 < List.length (List.filter P l))%nat.
Proof.
  intros Hx HP. assert (x ∈ List.filter P l) as Hin
    by by apply elem_of_filter_bool.
  destruct (List.filter P l); [by apply elem_of_nil in Hin|simpl; lia].
Qed.

(** X14: the two reports agree.  When [get_registers] returns a node of
    some type, the records that [print_graph_stat] emits hold a record for
    that type as numpy reads it, without its trailing NUL characters; the
    count in that record is the number of record-carrying nodes of the
    graph whose type reads the same, and it is not less than the number of
    returned registers whose type reads the same, which is not zero. *)
Theorem registers_in_statistics (env : environment) (G : DiGraph)
    (w : world) (t : string) :
  let same_type d :=
    bool_decide (np_str <$> gate_of (heap w) d = Some (np_str t)) in
  ∃ regs, (get_registers env G w).1 = Ok regs ∧
    ((∃ d, d ∈ regs ∧ gate_of (heap w) d = Some t) →
     ∃ before after c,
       log (print_graph_stat env G w).2
       = log w ++ before ++ stat_line (np_str t) c :: after ++ [header env] ∧
       c = List.length (List.filter same_type (nodes_values G)) ∧
       (0 < List.length (List.filter same_type regs) <= c)%nat).
Proof.
  intros same_type. rewrite get_registers_run. eexists. split; [done|].
  intros (d & Hd & Ht).
  set (gates := np_array (gate_types (heap w) G)).
  assert (same_type d = true) as Hsame.
  { subst same_type. cbv beta. rewrite Ht. by apply bool_decide_eq_true_2. }
  assert (np_str t ∈ (runs (sort gates)).*1) as Hin.
  { rewrite runs_keys_elem, sort_elem. subst gates.
    unfold np_array, gate_types. apply list_elem_of_fmap. exists t.
    split; [done|]. apply list_elem_of_omap. exists d. split; [|done].
    by apply elem_of_filter_bool in Hd as [Hd _]. }
  apply list_elem_of_split in Hin as (l1 & l2 & Hkeys).
  exists ((λ x, stat_line x (occurrences x gates)) <$> l1),
         ((λ x, stat_line x (occurrences x gates)) <$> l2),
         (occurrences (np_str t) gates).
  split; [|split].
  - rewrite print_graph_stat_run. cbn [snd log]. fold gates.
    rewrite (runs_counts (sort gates)) by apply sort_sorted.
    rewrite <- list_fmap_compose, Hkeys, fmap_app. cbn [fmap list_fmap].
    unfold compose. cbn [fst snd].
    rewrite <- !List.app_assoc. cbn [app]. do 2 f_equal.
    + apply list_fmap_ext. intros i x _. by rewrite sort_occurrences.
    + rewrite sort_occurrences. do 2 f_equal.
      apply list_fmap_ext. intros i x _. by rewrite sort_occurrences.
  - subst gates. unfold np_array, gate_types.
    by rewrite occurrences_np_gate_types.
  - subst gates. unfold np_array, gate_types.
    rewrite occurrences_np_gate_types. split.
    + by apply (filter_length_pos _ _ d).
    + apply filter_filter_length.
Qed.

(** With [A] in the table of registers, of two nodes of types [A] followed
    by a NUL character and [A] the second one is returned, and the record
    of that type counts both. *)
Example registers_in_statistics_nul :
  let env := Env 8 {[ "A" ]} stat_example resolve_example chdir_example
               (git_describe env_example) (pkg_require env_example) in
  (get_registers env nul_graph nul_world).1 = Ok [Attrs (Some 1) ∅] ∧
  log (print_graph_stat env nul_graph nul_world).2 = ["A: 2"; header env].
Proof. split; vm_compute; reflexivity. Qed.
